(** * gin-named-router: named routes and reverse path construction

    A shallow embedding of [named_routes.go] (package [namedrouter]).

    Go maps are reference values: the [names] map of a [*NamedRouter] is
    shared by every [NamedGroup] that points at the router, and the
    [parameters] map of a [NamedRoute] is shared by every copy of the
    handle (the methods of [NamedRoute] have value receivers, but copying
    the struct copies the map reference, not the map).  The embedding
    therefore keeps all string-to-string maps in one store, and structs
    hold locations of that store.

    The wrapped [gin.Engine] / [gin.RouterGroup] is a foreign library; the
    calls [nr.GET(...)], [nr.Group(...)] and the like are not part of this
    development, which follows what the wrappers do to the store when those
    calls return.  Where a whole sequence of registrations is run, whether
    each call into gin returns or panics is a parameter of the run. *)

From Stdlib Require Import Ascii.
From stdpp Require Import base option list strings gmap fin_maps.

(** ** Strings *)

Module Strings.

(** [strings.Split(s, "/")]: the substrings of [s] between the
    occurrences of the separator byte.  The result always has at least
    one element; [Split("", "/")] is the one-element slice [[""]]. *)
Fixpoint Split (s : string) : list string :=
  match s with
  | EmptyString => [EmptyString]
  | String c s' =>
      if Ascii.eqb c "/"%char then EmptyString :: Split s'
      else match Split s' with
           | part :: parts => String c part :: parts
           | [] => [String c EmptyString]
           end
  end.

(** [strings.Join(parts, "/")], the inverse of [Split]; the package does
    not call it, the statements below do. *)
Fixpoint Join (parts : list string) : string :=
  match parts with
  | [] => ""
  | [part] => part
  | part :: parts' => part +:+ "/" +:+ Join parts'
  end.

(** [strings.HasPrefix(s, "/")], likewise for the statements only. *)
Definition HasPrefixSlash (s : string) : bool :=
  match s with
  | String c _ => Ascii.eqb c "/"%char
  | EmptyString => false
  end.

(** [!strings.Contains(s, "//")], likewise for the statements only. *)
Fixpoint NoDoubleSlash (s : string) : bool :=
  match s with
  | EmptyString => true
  | String c s' =>
      negb (Ascii.eqb c "/"%char && HasPrefixSlash s') && NoDoubleSlash s'
  end.

End Strings.

(** ** Data model *)

(** A location of the store of maps. *)
Abbreviation loc := positive.

(** The store: every live [map[string]string] of the program. *)
Abbreviation Store := (gmap positive (gmap string string)).

(** [type NamedRouter struct { *gin.Engine; names map[string]string }],
    always used through a pointer; the struct is identified with its
    [names] map, which is allocated by [New] and never reassigned. *)
Record NamedRouter := mkNamedRouter { names : loc }.

(** [type NamedRoute struct { name, route string; parameters map[string]string }] *)
Record NamedRoute := mkNamedRoute {
  name : string;
  route : string;
  parameters : loc
}.

(** [type NamedGroup struct { *gin.RouterGroup; namedRouter *NamedRouter; basePath string }] *)
Record NamedGroup := mkNamedGroup {
  namedRouter : NamedRouter;
  basePath : string
}.

(** The three error types, each a [string] newtype. *)
Inductive error :=
  | NoRouteDefinedError (s : string)
  | UnknownRouteParameter (s : string)
  | RouteParameterNotSet (s : string).

(** [Error()] of the three types ([fmt.Sprintf] with a [%s] verb). *)
Definition Error (e : error) : string :=
  match e with
  | NoRouteDefinedError s => "no route defined for " +:+ s
  | UnknownRouteParameter s => "unknown route parameter: " +:+ s
  | RouteParameterNotSet s => "route parameter not set: " +:+ s
  end.

#[global] Instance error_eq_dec : EqDecision error.
Proof. solve_decision. Defined.

(** ** Effects: a store of maps, and panics *)

(** A computation reads and updates the store and either returns or
    panics ([None]); the only panic of this package is the assignment to
    an entry of a nil map. *)
Definition M (A : Type) : Type := Store → option (A * Store).

#[global] Instance M_ret : MRet M := λ A a σ, Some (a, σ).

#[global] Instance M_bind : MBind M := λ A B k c σ,
  match c σ with
  | Some (a, σ') => k a σ'
  | None => None
  end.

(** [make(map[string]string)]: a fresh, empty map. *)
Definition make_map : M loc :=
  λ σ, let l := fresh (dom σ) in Some (l, <[l := ∅]> σ).

(** [m[key]] as an expression: the zero value [""] when the key is absent
    or the map is nil. *)
Definition map_index (l : loc) (key : string) : M string :=
  λ σ, Some (default "" (σ !! l ≫= (.!! key)), σ).

(** [value, exists := m[key]]. *)
Definition map_lookup (l : loc) (key : string) : M (option string) :=
  λ σ, Some (σ !! l ≫= (.!! key), σ).

(** [m[key] = value]; panics on a nil map. *)
Definition map_assign (l : loc) (key value : string) : M unit :=
  λ σ, match σ !! l with
       | Some m => Some (tt, <[l := <[key := value]> m]> σ)
       | None => None
       end.

(** [delete(m, key)]; a no-op on a nil map. *)
Definition map_delete (l : loc) (key : string) : M unit :=
  λ σ, Some (tt, alter (delete key) l σ).

(** [len(m)]. *)
Definition map_len (l : loc) : M nat :=
  λ σ, Some (size (default ∅ (σ !! l)), σ).

(** [for key := range m { return key }]: the first key that the range
    loop yields, if any.  Go leaves the iteration order of a map
    unspecified and varies it from one loop to the next; [seed] stands
    for that choice, and every key of the map is the first one for some
    seed. *)
Definition range_first (seed : nat) (m : gmap string string) : option string :=
  let keys := (map_to_list m).*1 in
  keys !! (seed `mod` length keys).

Definition map_range_first (seed : nat) (l : loc) : M (option string) :=
  λ σ, Some (range_first seed (default ∅ (σ !! l)), σ).

(** ** The router, its groups and the registration entry points *)

(** [func New(engine *gin.Engine) *NamedRouter] *)
Definition New : M NamedRouter :=
  names ← make_map;
  mret {| names := names |}.

(** [func (nr *NamedRouter) NamedGroup(path string, ...) *NamedGroup] *)
Definition NamedRouter_NamedGroup (nr : NamedRouter) (path : string) : M NamedGroup :=
  mret {| namedRouter := nr; basePath := path |}.

(** [func (ng *NamedGroup) NamedGroup(path string, ...) *NamedGroup] *)
Definition NamedGroup_NamedGroup (ng : NamedGroup) (path : string) : M NamedGroup :=
  let basePath := basePath ng +:+ "/" +:+ path in
  mret {| namedRouter := namedRouter ng; basePath := basePath |}.

(** The seven entry points of the router: [nr.names[name] = relativePath]
    followed by the call into gin. *)
Definition NamedRouter_Post (nr : NamedRouter) (name relativePath : string) : M unit :=
  map_assign (names nr) name relativePath.
Definition NamedRouter_Get (nr : NamedRouter) (name relativePath : string) : M unit :=
  map_assign (names nr) name relativePath.
Definition NamedRouter_Delete (nr : NamedRouter) (name relativePath : string) : M unit :=
  map_assign (names nr) name relativePath.
Definition NamedRouter_Patch (nr : NamedRouter) (name relativePath : string) : M unit :=
  map_assign (names nr) name relativePath.
Definition NamedRouter_Put (nr : NamedRouter) (name relativePath : string) : M unit :=
  map_assign (names nr) name relativePath.
Definition NamedRouter_Options (nr : NamedRouter) (name relativePath : string) : M unit :=
  map_assign (names nr) name relativePath.
Definition NamedRouter_Head (nr : NamedRouter) (name relativePath : string) : M unit :=
  map_assign (names nr) name relativePath.

(** The seven entry points of a group:
    [ng.namedRouter.names[name] = ng.basePath + relativePath]
    followed by the call into gin. *)
Definition NamedGroup_Post (ng : NamedGroup) (name relativePath : string) : M unit :=
  map_assign (names (namedRouter ng)) name (basePath ng +:+ relativePath).
Definition NamedGroup_Get (ng : NamedGroup) (name relativePath : string) : M unit :=
  map_assign (names (namedRouter ng)) name (basePath ng +:+ relativePath).
Definition NamedGroup_Delete (ng : NamedGroup) (name relativePath : string) : M unit :=
  map_assign (names (namedRouter ng)) name (basePath ng +:+ relativePath).
Definition NamedGroup_Patch (ng : NamedGroup) (name relativePath : string) : M unit :=
  map_assign (names (namedRouter ng)) name (basePath ng +:+ relativePath).
Definition NamedGroup_Put (ng : NamedGroup) (name relativePath : string) : M unit :=
  map_assign (names (namedRouter ng)) name (basePath ng +:+ relativePath).
Definition NamedGroup_Options (ng : NamedGroup) (name relativePath : string) : M unit :=
  map_assign (names (namedRouter ng)) name (basePath ng +:+ relativePath).
Definition NamedGroup_Head (ng : NamedGroup) (name relativePath : string) : M unit :=
  map_assign (names (namedRouter ng)) name (basePath ng +:+ relativePath).

(** ** Reverse lookup and path construction *)

(** [func (nr *NamedRouter) Reverse(name string) NamedRoute] *)
Definition Reverse (nr : NamedRouter) (name : string) : M NamedRoute :=
  route ← map_index (names nr) name;
  parameters ← make_map;
  mret {| name := name; route := route; parameters := parameters |}.

(** [func (nr NamedRoute) With(key, value string) NamedRoute]: the
    receiver is a copy of the struct, the map it points at is not. *)
Definition With (nr : NamedRoute) (key value : string) : M NamedRoute :=
  map_assign (parameters nr) key value;;
  mret nr.

(** [part[0:1] == ":" || part[0:1] == "*"], for the first byte of a
    non-empty [part]. *)
Definition is_marker (c : ascii) : bool :=
  (Ascii.eqb c ":" || Ascii.eqb c "*")%char.

(** The [for i, part := range parts] loop of [Path], from index [i] on.
    The result is the builder's content when the loop runs to its end
    ([inl]), or the error of the early return ([inr]). *)
Fixpoint Path_loop (nr : NamedRoute) (parts : list string)
    (i lastPartIndex : nat) (url : string) : M (string + error) :=
  match parts with
  | [] => mret (inl url)
  | part :: parts' =>
      match part with
      | EmptyString =>
          (* continue *)
          Path_loop nr parts' (S i) lastPartIndex url
      | String c param =>
          if is_marker c then
            r ← map_lookup (parameters nr) param;
            match r with
            | None => mret (inr (RouteParameterNotSet param))
            | Some value =>
                let url := url +:+ value in
                (* Consume the parameter to later ensure everything is used *)
                map_delete (parameters nr) param;;
                let url := if (i <? lastPartIndex)%nat then url +:+ "/" else url in
                Path_loop nr parts' (S i) lastPartIndex url
            end
          else
            let url := url +:+ part in
            let url := if (i <? lastPartIndex)%nat then url +:+ "/" else url in
            Path_loop nr parts' (S i) lastPartIndex url
      end
  end.

(** [func (nr NamedRoute) Path() (string, error)]; [None] as the error
    is Go's [nil]. *)
Definition Path (seed : nat) (nr : NamedRoute) : M (string * option error) :=
  if decide (route nr = "") then
    mret ("", Some (NoRouteDefinedError (name nr)))
  else
    let url := "/" in
    let parts := Strings.Split (route nr) in
    let lastPartIndex := length parts - 1 in
    r ← Path_loop nr parts 0 lastPartIndex url;
    match r with
    | inr err => mret ("", Some err)
    | inl url =>
        n ← map_len (parameters nr);
        if (0 <? n)%nat then
          key ← map_range_first seed (parameters nr);
          match key with
          | Some key => mret ("", Some (UnknownRouteParameter key))
          | None => mret (url, None)
          end
        else mret (url, None)
    end.

(** ** Running the examples of the package *)

Module Examples.

(** The routes of [TestNamedRoute_Path]. *)
Definition routes : list (string * string) :=
  [("root", "/"); ("index", "/index"); ("about", "/about/us");
   ("user", "/user/:id"); ("user-item", "/user/:id/item/:item");
   ("item-splat", "/item/*splat")].

(** The body of one test case: register the routes, reverse the name,
    add the parameters, build the path. *)
Definition run (seed : nat) (routes : list (string * string))
    (routeName : string) (params : list (string * string)) :
    M (string * option error) :=
  router ← New;
  mapM (λ r, NamedRouter_Get router r.1 r.2) routes;;
  route ← Reverse router routeName;
  mapM (λ kv, With route kv.1 kv.2) params;;
  Path seed route.

(** A route registered in a group nested in another group, as in
    [Example]; then as above. *)
Definition run_nested (seed : nat) (prefix prefix' name relativePath : string)
    (params : list (string * string)) : M (string * option error) :=
  router ← New;
  api ← NamedRouter_NamedGroup router prefix;
  v1 ← NamedGroup_NamedGroup api prefix';
  NamedGroup_Post v1 name relativePath;;
  route ← Reverse router name;
  mapM (λ kv, With route kv.1 kv.2) params;;
  Path seed route.

(** Two calls of [Path] on one handle. *)
Definition run_twice (seed seed' : nat) (routes : list (string * string))
    (routeName : string) (params : list (string * string)) :
    M ((string * option error) * (string * option error)) :=
  router ← New;
  mapM (λ r, NamedRouter_Get router r.1 r.2) routes;;
  route ← Reverse router routeName;
  mapM (λ kv, With route kv.1 kv.2) params;;
  first ← Path seed route;
  second ← Path seed' route;
  mret (first, second).

Definition result {A} (c : M A) : option A := fst <$> c ∅.

End Examples.

(** ** What a template asks for, and what a walk over it writes *)

(** The parameter name of a placeholder segment: the segment without its
    leading [:] or [*]. *)
Definition placeholder (part : string) : option string :=
  match part with
  | String c param => if is_marker c then Some param else None
  | EmptyString => None
  end.

(** The parameter names of the placeholder segments, in template order. *)
Definition placeholders (parts : list string) : list string :=
  omap placeholder parts.

(** The bindings left after the parameters [ps] have been consumed. *)
Definition consume (ps : list string) (m : gmap string string) : gmap string string :=
  foldl (λ m p, delete p m) m ps.

(** The text a segment stands for under the bindings [m]. *)
Definition segment_value (m : gmap string string) (part : string) : string :=
  match placeholder part with
  | Some param => default "" (m !! param)
  | None => part
  end.

(** The joiner rule in the words of the specification: empty segments
    contribute nothing; every other segment contributes its text,
    followed by a [/] unless it is the final segment of the split. *)
Fixpoint joined (m : gmap string string) (parts : list string) : string :=
  match parts with
  | [] => ""
  | part :: parts' =>
      (if decide (part = "") then ""
       else segment_value m part +:+ (if parts' is [] then "" else "/"))
      +:+ joined m parts'
  end.

(** The template with each placeholder segment replaced by its value. *)
Definition substitute (m : gmap string string) (template : string) : string :=
  Strings.Join (segment_value m <$> Strings.Split template).

(** The [/] that the loop writes after a non-empty segment. *)
Definition slash (i lastPartIndex : nat) (url : string) : string :=
  if i <? lastPartIndex then url +:+ "/" else url.

(** Every segment but the last is non-empty. *)
Fixpoint interior_nonempty (parts : list string) : Prop :=
  match parts with
  | [] => True
  | part :: parts' =>
      match parts' with
      | [] => True
      | _ :: _ => part ≠ "" ∧ interior_nonempty parts'
      end
  end.

(** The first non-empty segment of a template. *)
Definition first_segment (parts : list string) : option string :=
  head (filter (λ part, part ≠ "") parts).

(** ** Observations and compound runs *)

(** The binding set that a handle gives access to (a nil map reads as
    the empty one). *)
Definition bindings (nr : NamedRoute) : M (gmap string string) :=
  λ σ, Some (default ∅ (σ !! parameters nr), σ).

(** The HTTP methods that have a registration entry point. *)
Inductive method := POST | GET | DELETE | PATCH | PUT | OPTIONS | HEAD.

#[global] Instance method_eq_dec : EqDecision method.
Proof. solve_decision. Defined.

(** The entry point of a group for each method. *)
Definition NamedGroup_register (meth : method) :
    NamedGroup → string → string → M unit :=
  match meth with
  | POST => NamedGroup_Post
  | GET => NamedGroup_Get
  | DELETE => NamedGroup_Delete
  | PATCH => NamedGroup_Patch
  | PUT => NamedGroup_Put
  | OPTIONS => NamedGroup_Options
  | HEAD => NamedGroup_Head
  end.

(** [ng.NamedGroup(p1).NamedGroup(p2)...] *)
Fixpoint descend (ng : NamedGroup) (prefixes : list string) : M NamedGroup :=
  match prefixes with
  | [] => mret ng
  | prefix :: prefixes' =>
      ng' ← NamedGroup_NamedGroup ng prefix;
      descend ng' prefixes'
  end.

(** [router.NamedGroup(prefix).NamedGroup(p1).NamedGroup(p2)...] *)
Definition nested_group (router : NamedRouter) (prefix : string)
    (prefixes : list string) : M NamedGroup :=
  ng ← NamedRouter_NamedGroup router prefix;
  descend ng prefixes.

(** ** Registrations, binding chains and template shapes *)

(** The entry point of the router for each method. *)
Definition NamedRouter_register (meth : method) :
    NamedRouter → string → string → M unit :=
  match meth with
  | POST => NamedRouter_Post
  | GET => NamedRouter_Get
  | DELETE => NamedRouter_Delete
  | PATCH => NamedRouter_Patch
  | PUT => NamedRouter_Put
  | OPTIONS => NamedRouter_Options
  | HEAD => NamedRouter_Head
  end.

(** One registration call: at the router itself, or in a group reached
    from the router through a chain of prefixes. *)
Inductive registration :=
  | AtRouter (meth : method) (name relativePath : string)
  | InGroup (meth : method) (prefix : string) (prefixes : list string)
      (name relativePath : string).

(** The calls into gin that a registration makes ([nr.Group], [nr.GET],
    ...) either return or panic; gin panics, for instance, on a route
    whose method and path are registered already.  gin is not part of
    the package: [gin_returns earlier r] stands for whether the gin calls
    of [r] return when the registrations [earlier] have been made before.
    gin has no access to the maps of the store. *)
Definition gin_call (returns : bool) : M unit :=
  λ σ, if returns then Some (tt, σ) else None.

(** One registration call, gin included: the entry point assigns to the
    registry and then calls gin. *)
Definition register (gin_returns : list registration → registration → bool)
    (router : NamedRouter) (earlier : list registration) (r : registration) : M unit :=
  match r with
  | AtRouter meth name relativePath =>
      NamedRouter_register meth router name relativePath;;
      gin_call (gin_returns earlier r)
  | InGroup meth prefix prefixes name relativePath =>
      ng ← nested_group router prefix prefixes;
      NamedGroup_register meth ng name relativePath;;
      gin_call (gin_returns earlier r)
  end.

(** A start-up sequence of registration calls, made after the calls
    [earlier]; a panic ends it. *)
Fixpoint register_all (gin_returns : list registration → registration → bool)
    (router : NamedRouter) (earlier rs : list registration) : M unit :=
  match rs with
  | [] => mret tt
  | r :: rs' =>
      register gin_returns router earlier r;;
      register_all gin_returns router (earlier ++ [r]) rs'
  end.

(** Whether gin returns from every call of the sequence. *)
Fixpoint all_return (gin_returns : list registration → registration → bool)
    (earlier rs : list registration) : bool :=
  match rs with
  | [] => true
  | r :: rs' => gin_returns earlier r && all_return gin_returns (earlier ++ [r]) rs'
  end.

(** The method of a registration call. *)
Definition registered_method (r : registration) : method :=
  match r with
  | AtRouter meth _ _ => meth
  | InGroup meth _ _ _ _ => meth
  end.

(** The name a registration call registers, and the template one expects
    it to register. *)
Definition registered_name (r : registration) : string :=
  match r with
  | AtRouter _ name _ => name
  | InGroup _ _ _ name _ => name
  end.

Definition registered_template (r : registration) : string :=
  match r with
  | AtRouter _ _ relativePath => relativePath
  | InGroup _ prefix prefixes _ relativePath =>
      Strings.Join (prefix :: prefixes) +:+ relativePath
  end.

(** A stand-in for gin, for running examples: it panics on a method and
    template that were registered before, and returns otherwise. *)
Definition gin_rejects_repeats (earlier : list registration) (r : registration) : bool :=
  bool_decide ((registered_method r, registered_template r)
               ∉ (λ r', (registered_method r', registered_template r')) <$> earlier).

(** [nr.With(k1, v1).With(k2, v2)...] *)
Fixpoint With_all (nr : NamedRoute) (kvs : list (string * string)) : M NamedRoute :=
  match kvs with
  | [] => mret nr
  | kv :: kvs' => nr' ← With nr kv.1 kv.2; With_all nr' kvs'
  end.

(** A string without the separator byte. *)
Fixpoint slash_free (s : string) : bool :=
  match s with
  | EmptyString => true
  | String c s' => negb (Ascii.eqb c "/"%char) && slash_free s'
  end.

(** Two segments that are the same literal, or placeholders of the same
    parameter whatever their markers ([:id] and [*id]). *)
Definition same_segment (part part' : string) : Prop :=
  part = part' ∨ (∃ param, placeholder part = Some param ∧ placeholder part' = Some param).

(** ** Strings: basic facts *)

Lemma str_app_assoc (a b c : string) : (a +:+ b) +:+ c = a +:+ b +:+ c.
Proof. induction a as [|x a IH]; [done|]. cbv [String.app] in *. cbn. by rewrite IH. Qed.

Lemma str_app_nil_r (a : string) : a +:+ "" = a.
Proof. induction a as [|x a IH]; [done|]. cbv [String.app] in *. cbn. by rewrite IH. Qed.

Lemma str_app_cons (x : ascii) (a b : string) : String x a +:+ b = String x (a +:+ b).
Proof. done. Qed.

Lemma Split_nonempty (s : string) : Strings.Split s ≠ [].
Proof.
  destruct s as [|c s]; [done|]. cbn.
  destruct (Ascii.eqb c "/"); [done|]. by destruct (Strings.Split s).
Qed.

Lemma Join_Split (s : string) : Strings.Join (Strings.Split s) = s.
Proof.
  induction s as [|c s IH]; [done|]. cbn [Strings.Split].
  destruct (Ascii.eqb_spec c "/") as [->|Hc].
  - pose proof (Split_nonempty s) as Hne.
    destruct (Strings.Split s) as [|p ps] eqn:E; [done|].
    cbn [Strings.Join]. cbn [Strings.Join] in IH. by rewrite IH.
  - destruct (Strings.Split s) as [|p ps] eqn:E.
    + by destruct (Split_nonempty s).
    + destruct ps as [|q ps]; cbn [Strings.Join] in *.
      * by rewrite IH.
      * by rewrite str_app_cons, IH.
Qed.

(** ** Bindings: basic facts *)

Lemma lookup_consume (ps : list string) (m : gmap string string) (k : string) :
  consume ps m !! k = if decide (k ∈ ps) then None else m !! k.
Proof.
  revert m. induction ps as [|p ps IH]; intros m; cbn.
  - by rewrite decide_False by apply not_elem_of_nil.
  - fold (consume ps (delete p m)). rewrite IH.
    destruct (decide (k = p)) as [->|Hne].
    + rewrite lookup_delete_eq. rewrite (decide_True (P := p ∈ p :: ps)) by left.
      by case_decide.
    + rewrite lookup_delete_ne by done.
      destruct (decide (k ∈ ps)) as [Hin|Hin].
      * by rewrite decide_True by (by right).
      * rewrite decide_False; [done|]. by intros [?|?]%elem_of_cons.
Qed.

Lemma consume_all (ps : list string) (m : gmap string string) :
  (∀ k, k ∈ dom m → k ∈ ps) → consume ps m = ∅.
Proof.
  intros Hdom. apply map_eq; intros k.
  rewrite lookup_consume, lookup_empty. case_decide as Hk; [done|].
  apply not_elem_of_dom. intros Hin. by apply Hk, Hdom.
Qed.

Lemma elem_of_dom_delete (k q : string) (m : gmap string string) :
  k ∈ dom (delete q m) ↔ k ∈ dom m ∧ k ≠ q.
Proof. by rewrite dom_delete_L, elem_of_difference, not_elem_of_singleton. Qed.

Lemma alter_live (σ : gmap positive (gmap string string)) (l : positive)
    (m : gmap string string) (f : gmap string string → gmap string string) :
  σ !! l = Some m → alter f l σ = <[l := f m]> σ.
Proof.
  intros Hl. apply map_eq; intros l'. rewrite lookup_alter, lookup_insert.
  case_decide as E; [|done]. subst l'. by rewrite Hl.
Qed.

Lemma range_first_elem (seed : nat) (m : gmap string string) (k : string) :
  range_first seed m = Some k → k ∈ dom m.
Proof.
  unfold range_first. intros Hk%list_elem_of_lookup_2.
  apply elem_of_dom. apply list_elem_of_fmap in Hk as [[k' v] [-> Hkv]].
  apply elem_of_map_to_list in Hkv. by exists v.
Qed.

Lemma range_first_is_Some (seed : nat) (m : gmap string string) :
  m ≠ ∅ → is_Some (range_first seed m).
Proof.
  intros Hne. unfold range_first. apply lookup_lt_is_Some.
  apply Nat.mod_upper_bound. rewrite length_fmap.
  intros Hlen. apply Hne. apply map_to_list_empty_iff.
  by apply length_zero_iff_nil.
Qed.

Lemma range_first_any (m : gmap string string) (k : string) :
  k ∈ dom m → ∃ seed, range_first seed m = Some k.
Proof.
  intros [v Hv]%elem_of_dom. apply elem_of_map_to_list in Hv.
  assert (k ∈ (map_to_list m).*1) as Hk.
  { apply list_elem_of_fmap. by exists (k, v). }
  apply list_elem_of_lookup in Hk as [i Hi]. exists i. unfold range_first.
  rewrite Nat.mod_small; [done|]. by eapply lookup_lt_Some.
Qed.

Lemma range_first_empty (seed : nat) : range_first seed ∅ = None.
Proof. unfold range_first. by rewrite map_to_list_empty. Qed.

(** ** Running the primitives *)

Lemma run_bind {A B} (c : M A) (k : A → M B) (σ : gmap positive (gmap string string)) :
  (c ≫= k) σ = match c σ with Some (a, σ') => k a σ' | None => None end.
Proof. done. Qed.

Lemma run_map_len (l : positive) (σ : gmap positive (gmap string string))
    (m : gmap string string) :
  σ !! l = Some m → map_len l σ = Some (size m, σ).
Proof. intros Hl. unfold map_len. by rewrite Hl. Qed.

Lemma run_map_range_first (seed : nat) (l : positive)
    (σ : gmap positive (gmap string string)) (m : gmap string string) :
  σ !! l = Some m → map_range_first seed l σ = Some (range_first seed m, σ).
Proof. intros Hl. unfold map_range_first. by rewrite Hl. Qed.

Lemma run_map_assign (l : positive) (key value : string)
    (σ : gmap positive (gmap string string)) (m : gmap string string) :
  σ !! l = Some m →
  map_assign l key value σ = Some (tt, <[l := <[key := value]> m]> σ).
Proof. intros Hl. unfold map_assign. by rewrite Hl. Qed.

(** ** The segment walk *)

Section walk.
Variable nr : NamedRoute.
Implicit Types (part param value url p : string) (parts pre rest : list string).
Implicit Types (i last : nat) (m : gmap string string).
Implicit Types (σ : gmap positive (gmap string string)).

Lemma Path_loop_skip parts i last url σ :
  Path_loop nr (EmptyString :: parts) i last url σ
  = Path_loop nr parts (S i) last url σ.
Proof. done. Qed.

Lemma Path_loop_literal part parts i last url σ :
  part ≠ "" → placeholder part = None →
  Path_loop nr (part :: parts) i last url σ
  = Path_loop nr parts (S i) last (slash i last (url +:+ part)) σ.
Proof.
  intros Hne Hph. destruct part as [|c param]; [done|].
  cbn in Hph |- *. by destruct (is_marker c).
Qed.

Lemma Path_loop_unbound part param parts i last url σ m :
  placeholder part = Some param →
  σ !! parameters nr = Some m → m !! param = None →
  Path_loop nr (part :: parts) i last url σ
  = Some (inr (RouteParameterNotSet param), σ).
Proof.
  intros Hph Hl Hp. destruct part as [|c param']; [done|].
  cbn in Hph |- *. destruct (is_marker c); [|done].
  injection Hph as ->.
  unfold mbind, M_bind, map_lookup. by rewrite Hl; cbn; rewrite Hp.
Qed.

Lemma Path_loop_bound part param value parts i last url σ m :
  placeholder part = Some param →
  σ !! parameters nr = Some m → m !! param = Some value →
  Path_loop nr (part :: parts) i last url σ
  = Path_loop nr parts (S i) last (slash i last (url +:+ value))
      (<[parameters nr := delete param m]> σ).
Proof.
  intros Hph Hl Hp. destruct part as [|c param']; [done|].
  cbn in Hph |- *. destruct (is_marker c); [|done].
  injection Hph as ->.
  unfold mbind, M_bind, map_lookup, map_delete.
  rewrite Hl; cbn; rewrite Hp. by rewrite (alter_live _ _ m).
Qed.

Lemma slash_joined i last part parts url :
  i + length (part :: parts) = S last →
  slash i last url = url +:+ (if parts is [] then "" else "/").
Proof.
  intros Hlen. unfold slash. destruct parts as [|q parts]; cbn in Hlen.
  - rewrite (proj2 (Nat.ltb_ge i last)) by lia. by rewrite str_app_nil_r.
  - by rewrite (proj2 (Nat.ltb_lt i last)) by lia.
Qed.

Lemma joined_ext m1 m2 parts :
  (∀ p, p ∈ placeholders parts → m1 !! p = m2 !! p) →
  joined m1 parts = joined m2 parts.
Proof.
  induction parts as [|part parts IH]; intros Hext; [done|].
  cbn [joined]. rewrite IH.
  - case_decide; [done|]. do 2 f_equal. unfold segment_value.
    destruct (placeholder part) as [param|] eqn:Hph; [|done].
    rewrite Hext; [done|]. unfold placeholders. cbn. rewrite Hph. left.
  - intros p Hp. apply Hext. unfold placeholders in *. cbn.
    destruct (placeholder part); [by right|done].
Qed.

(** The walk runs to its end when every placeholder is bound and no
    parameter name occurs twice; it writes the joined segments and
    consumes exactly the bindings of the placeholders. *)
Lemma Path_loop_complete parts i last url σ m :
  σ !! parameters nr = Some m →
  i + length parts = S last →
  NoDup (placeholders parts) →
  (∀ p, p ∈ placeholders parts → p ∈ dom m) →
  Path_loop nr parts i last url σ
  = Some (inl (url +:+ joined m parts),
          <[parameters nr := consume (placeholders parts) m]> σ).
Proof.
  revert i url σ m. induction parts as [|part parts IH]; intros i url σ m Hl Hlen Hnd Hdom.
  - cbn. rewrite str_app_nil_r. by rewrite insert_id.
  - destruct (decide (part = "")) as [->|Hne].
    + rewrite Path_loop_skip. rewrite (IH _ _ _ m); try done.
      cbn in Hlen |- *. lia.
    + cbn [joined]. rewrite decide_False by done.
      destruct (placeholder part) as [param|] eqn:Hph.
      * assert (placeholders (part :: parts) = param :: placeholders parts) as Hps.
        { unfold placeholders. cbn. by rewrite Hph. }
        rewrite Hps in *. apply NoDup_cons in Hnd as [Hnotin Hnd].
        destruct (m !! param) as [value|] eqn:Hp.
        2:{ exfalso. eapply (not_elem_of_dom m param); [done|]. apply Hdom. left. }
        rewrite (Path_loop_bound _ param value _ _ _ _ _ m) by done.
        rewrite (IH _ _ _ (delete param m)); try done.
        -- rewrite insert_insert_eq. rewrite (slash_joined _ _ part parts) by done.
           unfold segment_value. rewrite Hph, Hp. cbn [default].
           rewrite (joined_ext (delete param m) m parts).
           ++ by rewrite !str_app_assoc.
           ++ intros p Hin. apply lookup_delete_ne. by intros ->.
        -- apply lookup_insert_eq.
        -- cbn in Hlen |- *. lia.
        -- intros p Hin. rewrite dom_delete_L. apply elem_of_difference. split.
           ++ apply Hdom. by right.
           ++ apply not_elem_of_singleton. by intros ->.
      * assert (placeholders (part :: parts) = placeholders parts) as Hps.
        { unfold placeholders. cbn. by rewrite Hph. }
        rewrite Hps in *.
        rewrite Path_loop_literal by done.
        rewrite (IH _ _ _ m); try done.
        -- rewrite (slash_joined _ _ part parts) by done.
           unfold segment_value. rewrite Hph. by rewrite !str_app_assoc.
        -- cbn in Hlen |- *. lia.
Qed.

(** The walk stops at the first placeholder whose parameter is not in
    the working set when the walk reaches it: not bound in the handle,
    or consumed by an earlier placeholder of the same name.  The
    bindings of the placeholders before it have been consumed. *)
Lemma Path_loop_abort parts pre p rest i last url σ m :
  σ !! parameters nr = Some m →
  placeholders parts = pre ++ p :: rest →
  NoDup pre →
  (∀ q, q ∈ pre → q ∈ dom m) →
  p ∉ dom m ∨ p ∈ pre →
  Path_loop nr parts i last url σ
  = Some (inr (RouteParameterNotSet p),
          <[parameters nr := consume pre m]> σ).
Proof.
  revert pre i url σ m.
  induction parts as [|part parts IH]; intros pre i url σ m Hl Hps Hnd Hdom Hp.
  - by destruct pre.
  - destruct (decide (part = "")) as [->|Hne].
    + rewrite Path_loop_skip. by apply IH.
    + destruct (placeholder part) as [param|] eqn:Hph.
      * assert (placeholders (part :: parts) = param :: placeholders parts) as Hps'.
        { unfold placeholders. cbn. by rewrite Hph. }
        rewrite Hps' in Hps. destruct pre as [|q pre]; cbn in Hps.
        -- injection Hps as -> Hps.
           destruct Hp as [Hp|Hp]; [|by apply elem_of_nil in Hp].
           apply not_elem_of_dom in Hp.
           rewrite (Path_loop_unbound _ p _ _ _ _ _ m) by done.
           cbn. by rewrite insert_id.
        -- injection Hps as -> Hps. apply NoDup_cons in Hnd as [Hnotin Hnd].
           destruct (m !! q) as [value|] eqn:Hq.
           2:{ exfalso. eapply (not_elem_of_dom m q); [done|]. apply Hdom. left. }
           rewrite (Path_loop_bound _ q value _ _ _ _ _ m) by done.
           rewrite (IH pre _ _ _ (delete q m)); try done.
           ++ by rewrite insert_insert_eq.
           ++ apply lookup_insert_eq.
           ++ intros k Hin. rewrite dom_delete_L. apply elem_of_difference. split.
              ** apply Hdom. by right.
              ** apply not_elem_of_singleton. by intros ->.
           ++ destruct (decide (p = q)) as [->|Hpq].
              ** left. rewrite elem_of_dom_delete. by intros [_ ?].
              ** destruct Hp as [Hp|Hp].
                 --- left. rewrite elem_of_dom_delete. by intros [? _].
                 --- right. by apply elem_of_cons in Hp as [?|?].
      * assert (placeholders (part :: parts) = placeholders parts) as Hps'.
        { unfold placeholders. cbn. by rewrite Hph. }
        rewrite Hps' in Hps. rewrite Path_loop_literal by done. by apply IH.
Qed.

(** The walk never panics. *)
Lemma Path_loop_total parts i last url σ :
  is_Some (Path_loop nr parts i last url σ).
Proof.
  revert i url σ. induction parts as [|part parts IH]; intros i url σ; [by eexists|].
  destruct part as [|c param]; [apply IH|]. cbn [Path_loop].
  destruct (is_marker c); [|apply IH].
  rewrite run_bind. unfold map_lookup.
  destruct (σ !! parameters nr ≫= (.!! param)) as [value|]; [|by eexists].
  rewrite run_bind. unfold map_delete. apply IH.
Qed.

End walk.

(** Every template falls under one of the two cases above. *)
Lemma placeholders_cases (ps : list string) (m : gmap string string) :
  (NoDup ps ∧ ∀ p, p ∈ ps → p ∈ dom m) ∨
  (∃ pre p rest, ps = pre ++ p :: rest ∧ NoDup pre ∧
     (∀ q, q ∈ pre → q ∈ dom m) ∧ (p ∉ dom m ∨ p ∈ pre)).
Proof.
  revert m. induction ps as [|q ps IH]; intros m.
  - left. split; [constructor|]. by intros p ?%elem_of_nil.
  - destruct (decide (q ∈ dom m)) as [Hq|Hq].
    2:{ right. exists [], q, ps. repeat split; [constructor| |by left].
        by intros k ?%elem_of_nil. }
    destruct (IH (delete q m)) as [[Hnd Hdom]|(pre & p & rest & -> & Hnd & Hdom & Hp)].
    + left. split.
      * constructor; [|done]. by intros [_ ?]%Hdom%elem_of_dom_delete.
      * intros p [->|Hin]%elem_of_cons; [done|].
        by apply Hdom, elem_of_dom_delete in Hin as [? _].
    + right. exists (q :: pre), p, rest. repeat split.
      * constructor; [|done]. by intros [_ ?]%Hdom%elem_of_dom_delete.
      * intros k [->|Hin]%elem_of_cons; [done|].
        by apply Hdom, elem_of_dom_delete in Hin as [? _].
      * destruct Hp as [Hp|Hp]; [|right; by right].
        destruct (decide (p = q)) as [->|Hne]; [right; left|].
        left. intros Hin. apply Hp, elem_of_dom_delete. done.
Qed.

(** ** [Path] as a whole *)

Section path.
Implicit Types (nr : NamedRoute) (seed : nat) (m : gmap string string).
Implicit Types (σ : gmap positive (gmap string string)).
Implicit Types (p : string) (pre rest : list string).

(** [Path] never panics. *)
Lemma Path_total seed nr σ : is_Some (Path seed nr σ).
Proof.
  unfold Path. case_decide; [by eexists|]. rewrite run_bind.
  destruct (Path_loop_total nr (Strings.Split (route nr)) 0
              (length (Strings.Split (route nr)) - 1) "/" σ) as [[[url|err] σ'] ->];
    [|by eexists].
  rewrite run_bind. unfold map_len. destruct (0 <? _); [|by eexists].
  rewrite run_bind. unfold map_range_first.
  destruct (range_first seed _); by eexists.
Qed.

Lemma Path_undefined seed nr σ :
  route nr = "" →
  Path seed nr σ = Some (("", Some (NoRouteDefinedError (name nr))), σ).
Proof. intros Hr. unfold Path. by rewrite decide_True. Qed.

(** A full walk: the outcome is decided by the bindings left over. *)
Lemma Path_complete seed nr σ m :
  route nr ≠ "" →
  σ !! parameters nr = Some m →
  NoDup (placeholders (Strings.Split (route nr))) →
  (∀ p, p ∈ placeholders (Strings.Split (route nr)) → p ∈ dom m) →
  Path seed nr σ
  = Some (match range_first seed (consume (placeholders (Strings.Split (route nr))) m) with
          | Some key => ("", Some (UnknownRouteParameter key))
          | None => ("/" +:+ joined m (Strings.Split (route nr)), None)
          end,
          <[parameters nr := consume (placeholders (Strings.Split (route nr))) m]> σ).
Proof.
  intros Hr Hl Hnd Hdom. unfold Path. rewrite decide_False by done.
  rewrite run_bind.
  rewrite (Path_loop_complete nr _ _ _ _ _ m); try done.
  2:{ pose proof (Split_nonempty (route nr)).
      destruct (Strings.Split (route nr)); [done|]. cbn. lia. }
  set (m' := consume _ m). set (σ' := <[parameters nr := m']> σ).
  assert (σ' !! parameters nr = Some m') as Hl' by apply lookup_insert_eq.
  rewrite run_bind, (run_map_len _ _ m') by done.
  destruct (0 <? size m') eqn:Hsize.
  - rewrite run_bind, (run_map_range_first _ _ _ m') by done.
    by destruct (range_first seed m').
  - apply Nat.ltb_ge in Hsize. assert (m' = ∅) as ->.
    { apply map_size_empty_iff. lia. }
    by rewrite range_first_empty.
Qed.

(** An aborted walk. *)
Lemma Path_abort seed nr σ m pre p rest :
  σ !! parameters nr = Some m →
  placeholders (Strings.Split (route nr)) = pre ++ p :: rest →
  NoDup pre →
  (∀ q, q ∈ pre → q ∈ dom m) →
  p ∉ dom m ∨ p ∈ pre →
  Path seed nr σ
  = Some (("", Some (RouteParameterNotSet p)),
          <[parameters nr := consume pre m]> σ).
Proof.
  intros Hl Hps Hnd Hdom Hp. unfold Path.
  destruct (decide (route nr = "")) as [Hr|Hr].
  { rewrite Hr in Hps. by destruct pre. }
  rewrite run_bind.
  by rewrite (Path_loop_abort nr _ pre p rest _ _ _ _ m).
Qed.

End path.

(** ** Templates and slashes *)

Lemma Split_cons_slash (s : string) :
  Strings.Split (String "/" s) = "" :: Strings.Split s.
Proof. done. Qed.

Lemma HasPrefixSlash_true (s : string) :
  Strings.HasPrefixSlash s = true → ∃ s', s = String "/" s'.
Proof.
  destruct s as [|c s]; [done|]. cbn. intros ->%Ascii.eqb_eq. by exists s.
Qed.

Lemma Split_interior (s : string) :
  Strings.NoDoubleSlash s = true →
  interior_nonempty (tail (Strings.Split s)) ∧
  (Strings.HasPrefixSlash s = false → interior_nonempty (Strings.Split s)).
Proof.
  induction s as [|c s IH]; [done|]. cbn [Strings.NoDoubleSlash Strings.Split].
  intros [Hc Hs]%andb_true_iff. apply negb_true_iff in Hc.
  destruct (IH Hs) as [IHt IHf]. cbn [Strings.HasPrefixSlash].
  destruct (Ascii.eqb c "/") eqn:Ec.
  - cbn in Hc. split; [|done]. cbn [tail]. by apply IHf.
  - pose proof (Split_nonempty s) as Hne.
    destruct (Strings.Split s) as [|p ps] eqn:E; [done|]. cbn [tail] in *.
    split; [done|]. intros _. cbn. by destruct ps.
Qed.

(** A template that begins with [/] and has no [//] splits into one
    empty segment followed by segments of which only the last may be
    empty. *)
Lemma Split_well_slashed (s : string) :
  Strings.HasPrefixSlash s = true → Strings.NoDoubleSlash s = true →
  ∃ parts, Strings.Split s = "" :: parts ∧ parts ≠ [] ∧ interior_nonempty parts.
Proof.
  intros [s' ->]%HasPrefixSlash_true Hnd. exists (Strings.Split s').
  split; [done|]. split; [apply Split_nonempty|].
  apply Split_interior in Hnd as [Ht _]. by rewrite Split_cons_slash in Ht.
Qed.

(** No segment contains the separator; in particular none begins with it. *)
Lemma Split_no_slash (s part : string) :
  part ∈ Strings.Split s → Strings.HasPrefixSlash part = false.
Proof.
  revert part. induction s as [|c s IH]; intros part; cbn [Strings.Split].
  - by intros ->%list_elem_of_singleton.
  - destruct (Ascii.eqb c "/") eqn:Ec.
    + intros [->|Hin]%elem_of_cons; [done|]. by apply IH.
    + pose proof (Split_nonempty s) as Hne.
      destruct (Strings.Split s) as [|p ps] eqn:E; [done|].
      intros [->|Hin]%elem_of_cons; [done|]. apply IH. by right.
Qed.

Lemma joined_cons (m : gmap string string) (part : string) (parts : list string) :
  joined m (part :: parts)
  = (if decide (part = "") then ""
     else segment_value m part +:+ (if parts is [] then "" else "/"))
    +:+ joined m parts.
Proof. done. Qed.

Lemma joined_Join (m : gmap string string) (parts : list string) :
  parts ≠ [] → interior_nonempty parts →
  joined m parts = Strings.Join (segment_value m <$> parts).
Proof.
  induction parts as [|part parts IH]; [done|]. intros _ Hint.
  destruct parts as [|part' parts].
  - cbn. case_decide as E; [by subst part|]. by rewrite !str_app_nil_r.
  - destruct Hint as [Hne Hint]. rewrite joined_cons, decide_False by done.
    rewrite IH by done. by rewrite str_app_assoc.
Qed.

(** On such a template the joiner rule rebuilds the template itself,
    with the values in the place of the placeholders. *)
Lemma joined_substitute (m : gmap string string) (template : string) :
  Strings.HasPrefixSlash template = true →
  Strings.NoDoubleSlash template = true →
  "/" +:+ joined m (Strings.Split template) = substitute m template.
Proof.
  intros Hp Hnd. unfold substitute.
  destruct (Split_well_slashed template Hp Hnd) as (parts & -> & Hne & Hint).
  cbn [joined]. rewrite decide_True by done.
  rewrite joined_Join by done.
  destruct parts as [|part parts]; [done|]. done.
Qed.

Lemma segment_value_literal (m : gmap string string) (parts : list string) :
  placeholders parts = [] → segment_value m <$> parts = parts.
Proof.
  induction parts as [|part parts IH]; [done|]. unfold placeholders. cbn.
  unfold segment_value at 1. destruct (placeholder part); [done|].
  intros Hps. by rewrite IH.
Qed.

Lemma substitute_literal (m : gmap string string) (template : string) :
  placeholders (Strings.Split template) = [] → substitute m template = template.
Proof.
  intros Hps. unfold substitute. rewrite segment_value_literal by done.
  apply Join_Split.
Qed.

(** ** The tests of the package *)

Example TestNamedRoute_Path :
  let run := λ name params, Examples.result (Examples.run 0 Examples.routes name params) in
  run "root" [] = Some ("/", None) ∧
  run "about" [] = Some ("/about/us", None) ∧
  run "user" [("id", "3")] = Some ("/user/3", None) ∧
  run "user-item" [("id", "3"); ("item", "book")] = Some ("/user/3/item/book", None) ∧
  run "item-splat" [("splat", "records/7")] = Some ("/item/records/7", None) ∧
  run "unknown" [] = Some ("", Some (NoRouteDefinedError "unknown")) ∧
  run "user" [] = Some ("", Some (RouteParameterNotSet "id")) ∧
  run "user" [("id", "3"); ("item", "3")] = Some ("", Some (UnknownRouteParameter "item")).
Proof. vm_compute. repeat split. Qed.

Example Example_nested :
  Examples.result (Examples.run_nested 0 "/api" "v1" "v1-submit" "/submit" [])
  = Some ("/api/v1/submit", None).
Proof. vm_compute. reflexivity. Qed.

(** * The claims *)

(** ** Substitution *)

(** C1 (as amended).  For every template that begins with [/] and has no
    doubled slash, and whose placeholder segments carry pairwise distinct
    parameter names that are exactly the keys bound in the handle, [Path]
    succeeds and returns the template with each placeholder segment
    replaced verbatim by its bound value; the bindings have all been
    consumed. *)
Theorem Path_substitutes (seed : nat) (nr : NamedRoute)
    (σ : gmap positive (gmap string string)) (m : gmap string string) :
  σ !! parameters nr = Some m →
  Strings.HasPrefixSlash (route nr) = true →
  Strings.NoDoubleSlash (route nr) = true →
  NoDup (placeholders (Strings.Split (route nr))) →
  dom m = list_to_set (placeholders (Strings.Split (route nr))) →
  Path seed nr σ
  = Some ((substitute m (route nr), None), <[parameters nr := ∅]> σ).
Proof.
  intros Hl Hp Hds Hnd Hdom.
  assert (route nr ≠ "") as Hr by (by destruct (route nr)).
  rewrite (Path_complete seed nr σ m); try done.
  2:{ intros p Hin. rewrite Hdom. by apply elem_of_list_to_set. }
  rewrite consume_all.
  2:{ intros k. rewrite Hdom. by intros ?%elem_of_list_to_set. }
  by rewrite range_first_empty, joined_substitute.
Qed.

(** The three renderings of the tests are instances. *)
Lemma Path_substitutes_witness :
  Path 0 {| name := "user"; route := "/user/:id"; parameters := 1 |}
    {[ 1%positive := {[ "id" := "3" ]} ]}
  = Some (("/user/3", None), {[ 1%positive := ∅ ]}) ∧
  Path 0 {| name := "user-item"; route := "/user/:id/item/:item"; parameters := 1 |}
    {[ 1%positive := {[ "id" := "3"; "item" := "book" ]} ]}
  = Some (("/user/3/item/book", None), {[ 1%positive := ∅ ]}) ∧
  Path 0 {| name := "item-splat"; route := "/item/*splat"; parameters := 1 |}
    {[ 1%positive := {[ "splat" := "records/7" ]} ]}
  = Some (("/item/records/7", None), {[ 1%positive := ∅ ]}).
Proof.
  split; [|split].
  - etrans.
    + apply (Path_substitutes 0 {| name := "user"; route := "/user/:id"; parameters := 1 |}
               {[ 1%positive := {[ "id" := "3" ]} ]} {[ "id" := "3" ]});
        compute_done.
    + vm_compute. reflexivity.
  - etrans.
    + apply (Path_substitutes 0
               {| name := "user-item"; route := "/user/:id/item/:item"; parameters := 1 |}
               {[ 1%positive := {[ "id" := "3"; "item" := "book" ]} ]}
               {[ "id" := "3"; "item" := "book" ]});
        compute_done.
    + vm_compute. reflexivity.
  - etrans.
    + apply (Path_substitutes 0
               {| name := "item-splat"; route := "/item/*splat"; parameters := 1 |}
               {[ 1%positive := {[ "splat" := "records/7" ]} ]}
               {[ "splat" := "records/7" ]});
        compute_done.
    + vm_compute. reflexivity.
Defined.

(** C1, as stated, fails on a template with a doubled slash, such as the
    one stored for a route of the group [/api] / [/v1]: the placeholder is
    bound exactly once, [Path] succeeds, but the path is not the template
    with the placeholder replaced. *)
Lemma Path_substitutes_counterexample :
  Examples.result
    (Examples.run_nested 0 "/api" "/v1" "v1-item" "/item/:id" [("id", "3")])
  = Some ("/api/v1/item/3", None) ∧
  substitute {[ "id" := "3" ]} ("/api" +:+ "/" +:+ "/v1" +:+ "/item/:id")
  = "/api//v1/item/3" ∧
  Examples.result
    (Examples.run_nested 0 "/api" "/v1" "v1-item" "/item/:id" [("id", "3")])
  ≠ Some (substitute {[ "id" := "3" ]} ("/api" +:+ "/" +:+ "/v1" +:+ "/item/:id"), None).
Proof. vm_compute. done. Qed.

(** A template that begins with [/], has no doubled slash and no
    placeholder, walked with no bindings, is returned as it is. *)
Lemma Path_literal_handle (seed : nat) (nr : NamedRoute)
    (σ : gmap positive (gmap string string)) :
  σ !! parameters nr = Some ∅ →
  Strings.HasPrefixSlash (route nr) = true →
  Strings.NoDoubleSlash (route nr) = true →
  (∀ part, part ∈ Strings.Split (route nr) → placeholder part = None) →
  Path seed nr σ = Some ((route nr, None), σ).
Proof.
  intros Hl Hp Hds Hlit.
  assert (placeholders (Strings.Split (route nr)) = []) as Hps.
  { unfold placeholders. induction (Strings.Split (route nr)) as [|part parts IH]; [done|].
    cbn. rewrite (Hlit part) by left. apply IH. intros q Hq. apply Hlit. by right. }
  assert (route nr ≠ "") as Hr by (by destruct (route nr)).
  rewrite (Path_complete seed nr σ ∅); rewrite ?Hps; try done.
  - cbn [consume foldl]. rewrite range_first_empty, insert_id by done.
    by rewrite joined_substitute, substitute_literal.
  - constructor.
  - by intros p ?%elem_of_nil.
Qed.

(** What [Reverse] returns for a registered name. *)
Lemma Reverse_registered (router : NamedRouter) (name template : string)
    (σ : gmap positive (gmap string string)) (registry : gmap string string) :
  σ !! names router = Some registry →
  registry !! name = Some template →
  Reverse router name σ
  = Some ({| name := name; route := template; parameters := fresh (dom σ) |},
          <[fresh (dom σ) := ∅]> σ).
Proof.
  intros Hreg Hname. unfold Reverse. rewrite run_bind. unfold map_index.
  rewrite Hreg. cbn. by rewrite Hname.
Qed.

(** C5 (as amended).  For every registered (name, template) pair whose
    template begins with [/], has no doubled slash and has no segment
    starting with [:] or [*], [Path] on the handle that [Reverse] returns
    for the name, and on any handle of the template with zero bindings,
    returns exactly the template. *)
Theorem Path_literal (seed : nat) (router : NamedRouter) (name template : string)
    (σ : gmap positive (gmap string string)) (registry : gmap string string) :
  σ !! names router = Some registry →
  registry !! name = Some template →
  Strings.HasPrefixSlash template = true →
  Strings.NoDoubleSlash template = true →
  (∀ part, part ∈ Strings.Split template → placeholder part = None) →
  (route ← Reverse router name; Path seed route) σ
  = Some ((template, None), <[fresh (dom σ) := ∅]> σ) ∧
  (∀ nr σ', route nr = template → σ' !! parameters nr = Some ∅ →
     Path seed nr σ' = Some ((template, None), σ')).
Proof.
  intros Hreg Hname Hp Hds Hlit. split.
  - rewrite run_bind, (Reverse_registered router name template σ registry) by done.
    apply (Path_literal_handle seed
             {| name := name; route := template; parameters := fresh (dom σ) |}); try done.
    apply lookup_insert_eq.
  - intros nr σ' <- Hl. by apply Path_literal_handle.
Qed.

(** The registered pairs [root] and [about] of the tests, reversed and
    built with no bindings. *)
Lemma Path_literal_witness :
  (route ← Reverse {| names := 1 |} "root"; Path 0 route)
    {[ 1%positive := {[ "root" := "/"; "about" := "/about/us" ]} ]}
  = Some (("/", None),
          {[ 1%positive := {[ "root" := "/"; "about" := "/about/us" ]}; 2%positive := ∅ ]}) ∧
  (route ← Reverse {| names := 1 |} "about"; Path 0 route)
    {[ 1%positive := {[ "root" := "/"; "about" := "/about/us" ]} ]}
  = Some (("/about/us", None),
          {[ 1%positive := {[ "root" := "/"; "about" := "/about/us" ]}; 2%positive := ∅ ]}).
Proof.
  split.
  - destruct (Path_literal 0 {| names := 1 |} "root" "/"
                {[ 1%positive := {[ "root" := "/"; "about" := "/about/us" ]} ]}
                {[ "root" := "/"; "about" := "/about/us" ]}) as [Hpath _].
    + reflexivity.
    + compute_done.
    + reflexivity.
    + reflexivity.
    + intros part Hin. repeat (apply elem_of_cons in Hin as [->|Hin]; [done|]).
      by apply elem_of_nil in Hin.
    + etrans; [exact Hpath|]. vm_compute. reflexivity.
  - destruct (Path_literal 0 {| names := 1 |} "about" "/about/us"
                {[ 1%positive := {[ "root" := "/"; "about" := "/about/us" ]} ]}
                {[ "root" := "/"; "about" := "/about/us" ]}) as [Hpath _].
    + reflexivity.
    + compute_done.
    + reflexivity.
    + reflexivity.
    + intros part Hin. repeat (apply elem_of_cons in Hin as [->|Hin]; [done|]).
      by apply elem_of_nil in Hin.
    + etrans; [exact Hpath|]. vm_compute. reflexivity.
Defined.

(** C5, as stated, fails on a registered template with a doubled slash:
    the template stored for [/submit] in the group [/api] / [/v1] is
    [/api//v1/submit], and [Path] with no bindings returns
    [/api/v1/submit]. *)
Lemma Path_literal_counterexample :
  Examples.result
    (router ← New;
     api ← NamedRouter_NamedGroup router "/api";
     v1 ← NamedGroup_NamedGroup api "/v1";
     NamedGroup_Post v1 "v1-submit" "/submit";;
     map_index (names router) "v1-submit")
  = Some "/api//v1/submit" ∧
  Examples.result (Examples.run_nested 0 "/api" "/v1" "v1-submit" "/submit" [])
  = Some ("/api/v1/submit", None) ∧
  Examples.result (Examples.run_nested 0 "/api" "/v1" "v1-submit" "/submit" [])
  ≠ Some ("/api//v1/submit", None).
Proof. vm_compute. done. Qed.

(** ** The joiner *)

Lemma joined_no_slash (m : gmap string string) (parts : list string) :
  (∀ part, first_segment parts = Some part →
     segment_value m part ≠ "" ∧
     Strings.HasPrefixSlash (segment_value m part) = false) →
  Strings.HasPrefixSlash (joined m parts) = false.
Proof.
  induction parts as [|part parts IH]; [done|]. intros Hfirst.
  rewrite joined_cons. unfold first_segment in *.
  destruct (decide (part = "")) as [->|Hne].
  - apply IH. intros part Hhead. apply Hfirst.
    rewrite filter_cons_False; [done|]. intros H. by apply H.
  - rewrite filter_cons_True in Hfirst by done.
    destruct (Hfirst part eq_refl) as [Hv Hs].
    by destruct (segment_value m part).
Qed.

(** C6 (as amended).  Every successful [Path] output is a [/] followed by
    the non-empty segments of the template in template order, placeholders
    replaced by their values, each followed by a [/] unless it is the
    final segment of the split; empty segments contribute nothing, and so
    does the leading slash of the template.  The [/] that opens the
    output is single whenever the first non-empty segment is a literal,
    or a placeholder whose value is non-empty and does not begin with [/]. *)
Theorem Path_joiner (seed : nat) (nr : NamedRoute)
    (σ σ' : gmap positive (gmap string string)) (m : gmap string string)
    (out : string) :
  σ !! parameters nr = Some m →
  Path seed nr σ = Some ((out, None), σ') →
  out = "/" +:+ joined m (Strings.Split (route nr)) ∧
  (∀ template, route nr = String "/" template →
     joined m (Strings.Split (route nr)) = joined m (Strings.Split template)) ∧
  ((∀ part param value,
      first_segment (Strings.Split (route nr)) = Some part →
      placeholder part = Some param → m !! param = Some value →
      value ≠ "" ∧ Strings.HasPrefixSlash value = false) →
   Strings.HasPrefixSlash (joined m (Strings.Split (route nr))) = false).
Proof.
  intros Hl Hpath.
  destruct (decide (route nr = "")) as [Hr|Hr].
  { by rewrite Path_undefined in Hpath. }
  destruct (placeholders_cases (placeholders (Strings.Split (route nr))) m)
    as [[Hnd Hdom]|(pre & p & rest & Hps & Hnd & Hdom & Hp)].
  2:{ by rewrite (Path_abort seed nr σ m pre p rest) in Hpath. }
  rewrite (Path_complete seed nr σ m) in Hpath by done.
  split; [|split].
  - destruct (range_first seed _); by simplify_eq.
  - by intros template ->.
  - intros Hfirst. apply joined_no_slash. intros part Hpart.
    assert (part ∈ Strings.Split (route nr)) as Hin.
    { unfold first_segment in Hpart. apply head_Some_elem_of in Hpart.
      by apply list_elem_of_filter in Hpart as [_ ?]. }
    assert (part ≠ "") as Hne.
    { unfold first_segment in Hpart. apply head_Some_elem_of in Hpart.
      by apply list_elem_of_filter in Hpart as [? _]. }
    unfold segment_value. destruct (placeholder part) as [param|] eqn:Hph.
    + assert (param ∈ dom m) as [value Hv]%elem_of_dom.
      { apply Hdom. unfold placeholders. apply list_elem_of_omap. by exists part. }
      rewrite Hv. cbn. by eapply Hfirst.
    + split; [done|]. by eapply Split_no_slash.
Qed.

Lemma Path_joiner_witness :
  "/3/item" = "/" +:+ joined {[ "id" := "3" ]} (Strings.Split "/:id/item") ∧
  Strings.HasPrefixSlash (joined {[ "id" := "3" ]} (Strings.Split "/:id/item")) = false.
Proof.
  pose proof (Path_joiner 0
    {| name := "item"; route := "/:id/item"; parameters := 1 |}
    {[ 1%positive := {[ "id" := "3" ]} ]} {[ 1%positive := ∅ ]}
    {[ "id" := "3" ]} "/3/item"
    ltac:(compute_done) ltac:(vm_compute; reflexivity)) as (Hout & _ & Hslash).
  split; [exact Hout|]. apply Hslash.
  intros part param value [= <-] [= <-] [= <-]. done.
Defined.

(** C6, as stated, fails when the value of the first placeholder begins
    with [/] (as the value gin captures for a [*] parameter does) or is
    empty: the successful output then begins with [//]. *)
Lemma Path_joiner_counterexample :
  Examples.result
    (Examples.run 0 [("files", "/*filepath")] "files" [("filepath", "/css/site.css")])
  = Some ("//css/site.css", None) ∧
  Examples.result
    (Examples.run 0 [("pair", "/:a/:b")] "pair" [("a", ""); ("b", "")])
  = Some ("//", None).
Proof. vm_compute. done. Qed.

(** ** Errors *)

(** C2 (as amended).  [Path] fails with [RouteParameterNotSet] carrying
    the name of the first placeholder segment, in template order, whose
    parameter is not in the binding map of the handle when the walk
    reaches it: a parameter that was never bound, or one whose binding
    an earlier placeholder of the same name has consumed.  It returns
    the empty string and stops at that segment: the bindings of the
    earlier placeholders have been consumed, those of later ones have
    not. *)
Theorem Path_parameter_not_set (seed : nat) (nr : NamedRoute)
    (σ : gmap positive (gmap string string)) (m : gmap string string)
    (pre : list string) (p : string) (rest : list string) :
  σ !! parameters nr = Some m →
  placeholders (Strings.Split (route nr)) = pre ++ p :: rest →
  NoDup pre →
  (∀ q, q ∈ pre → q ∈ dom m) →
  p ∉ dom m ∨ p ∈ pre →
  Path seed nr σ
  = Some (("", Some (RouteParameterNotSet p)),
          <[parameters nr := consume pre m]> σ) ∧
  (∀ q, q ∈ rest → q ∉ pre → consume pre m !! q = m !! q).
Proof.
  intros Hl Hps Hnd Hdom Hp. split.
  - by apply (Path_abort seed nr σ m pre p rest).
  - intros q _ Hq. rewrite lookup_consume. by rewrite decide_False.
Qed.

(** [/user/:id/item/:item/*rest] with [id] and [rest] bound: the error
    names [item], the binding of [id] is gone and that of [rest] remains. *)
Lemma Path_parameter_not_set_witness :
  Path 0 {| name := "user-item"; route := "/user/:id/item/:item/*rest"; parameters := 1 |}
    {[ 1%positive := {[ "id" := "3"; "rest" := "a/b" ]} ]}
  = Some (("", Some (RouteParameterNotSet "item")),
          {[ 1%positive := {[ "rest" := "a/b" ]} ]}).
Proof.
  destruct (Path_parameter_not_set 0
              {| name := "user-item"; route := "/user/:id/item/:item/*rest"; parameters := 1 |}
              {[ 1%positive := {[ "id" := "3"; "rest" := "a/b" ]} ]}
              {[ "id" := "3"; "rest" := "a/b" ]} ["id"] "item" ["rest"])
    as [Hpath _].
  - reflexivity.
  - reflexivity.
  - compute_done.
  - intros q ->%list_elem_of_singleton. compute_done.
  - left. compute_done.
  - etrans; [exact Hpath|]. vm_compute. reflexivity.
Defined.

(** C2, as stated, fails when a parameter name is repeated before the
    first unbound placeholder: in [/user/:id/copy/:id/item/:item] with
    only [id] bound, the first placeholder without a binding in the
    handle is [item], but the error carries [id]. *)
Lemma Path_parameter_not_set_counterexample :
  placeholders (Strings.Split "/user/:id/copy/:id/item/:item") = ["id"; "id"; "item"] ∧
  Examples.result
    (Examples.run 0 [("copy", "/user/:id/copy/:id/item/:item")] "copy" [("id", "3")])
  = Some ("", Some (RouteParameterNotSet "id")) ∧
  Examples.result
    (Examples.run 0 [("copy", "/user/:id/copy/:id/item/:item")] "copy" [("id", "3")])
  ≠ Some ("", Some (RouteParameterNotSet "item")).
Proof. vm_compute. done. Qed.

(** C3 (as amended).  For a handle on a non-empty template whose bindings
    include a key that names no placeholder: when every placeholder is
    bound and no parameter name is repeated in the template, [Path]
    fails with [UnknownRouteParameter] carrying one of the keys that
    name no placeholder, and returns the empty string; when instead the
    walk meets a placeholder whose parameter is not in the working set,
    the [RouteParameterNotSet] of that segment is the result, whatever
    keys are left over. *)
Theorem Path_unknown_parameter (seed : nat) (nr : NamedRoute)
    (σ : gmap positive (gmap string string)) (m : gmap string string)
    (extra : string) :
  σ !! parameters nr = Some m →
  route nr ≠ "" →
  extra ∈ dom m →
  extra ∉ placeholders (Strings.Split (route nr)) →
  (NoDup (placeholders (Strings.Split (route nr))) →
   (∀ p, p ∈ placeholders (Strings.Split (route nr)) → p ∈ dom m) →
   ∃ key, key ∈ dom m ∧ (key ∉ placeholders (Strings.Split (route nr))) ∧
     Path seed nr σ
     = Some (("", Some (UnknownRouteParameter key)),
             <[parameters nr := consume (placeholders (Strings.Split (route nr))) m]> σ)) ∧
  (∀ pre p rest,
     placeholders (Strings.Split (route nr)) = pre ++ p :: rest →
     NoDup pre → (∀ q, q ∈ pre → q ∈ dom m) → p ∉ dom m ∨ p ∈ pre →
     Path seed nr σ
     = Some (("", Some (RouteParameterNotSet p)),
             <[parameters nr := consume pre m]> σ)).
Proof.
  intros Hl Hr Hextra Hnot. split.
  - intros Hnd Hdom. rewrite (Path_complete seed nr σ m) by done.
    set (m' := consume _ m).
    assert (m' ≠ ∅) as Hne.
    { intros Hm'. apply elem_of_dom in Hextra as [v Hv].
      assert (m' !! extra = Some v) as Hv'.
      { unfold m'. rewrite lookup_consume. by rewrite decide_False. }
      by rewrite Hm', lookup_empty in Hv'. }
    destruct (range_first_is_Some seed m' Hne) as [key Hkey]. rewrite Hkey.
    exists key. split; [|split; [|done]].
    + apply range_first_elem, elem_of_dom in Hkey as [v Hv].
      unfold m' in Hv. rewrite lookup_consume in Hv. case_decide; [done|].
      apply elem_of_dom. by exists v.
    + apply range_first_elem, elem_of_dom in Hkey as [v Hv].
      unfold m' in Hv. rewrite lookup_consume in Hv. by case_decide.
  - intros pre p rest Hps Hnd Hdom Hp.
    by apply (Path_abort seed nr σ m pre p rest).
Qed.

(** The "unused parameter" test: [/user/:id] with [id] and [item]. *)
Lemma Path_unknown_parameter_witness :
  ∃ key, key ∈ dom ({[ "id" := "3"; "item" := "3" ]} : gmap string string) ∧
    (key ∉ ["id"]) ∧
    Path 0 {| name := "user"; route := "/user/:id"; parameters := 1 |}
      {[ 1%positive := {[ "id" := "3"; "item" := "3" ]} ]}
    = Some (("", Some (UnknownRouteParameter key)),
            <[ 1%positive := consume ["id"] {[ "id" := "3"; "item" := "3" ]} ]>
              {[ 1%positive := {[ "id" := "3"; "item" := "3" ]} ]}).
Proof.
  apply (Path_unknown_parameter 0
           {| name := "user"; route := "/user/:id"; parameters := 1 |}
           {[ 1%positive := {[ "id" := "3"; "item" := "3" ]} ]}
           {[ "id" := "3"; "item" := "3" ]} "item").
  - reflexivity.
  - done.
  - compute_done.
  - compute_done.
  - compute_done.
  - intros p ->%list_elem_of_singleton. compute_done.
Defined.

(** C3, as stated, fails when a parameter name is repeated in the
    template: in [/a/:id/b/:id] with [id] and [extra] bound, every
    placeholder is bound and [extra] names none, but [Path] fails with
    [RouteParameterNotSet]. *)
Lemma Path_unknown_parameter_counterexample :
  placeholders (Strings.Split "/a/:id/b/:id") = ["id"; "id"] ∧
  Examples.result
    (Examples.run 0 [("twice", "/a/:id/b/:id")] "twice" [("id", "3"); ("extra", "1")])
  = Some ("", Some (RouteParameterNotSet "id")).
Proof. vm_compute. done. Qed.

(** Each leftover key is the one reported, for some iteration order. *)
Lemma Path_unknown_parameter_any (nr : NamedRoute)
    (σ : gmap positive (gmap string string)) (m : gmap string string)
    (extra : string) :
  σ !! parameters nr = Some m →
  route nr ≠ "" →
  NoDup (placeholders (Strings.Split (route nr))) →
  (∀ p, p ∈ placeholders (Strings.Split (route nr)) → p ∈ dom m) →
  extra ∈ dom m →
  extra ∉ placeholders (Strings.Split (route nr)) →
  ∃ seed, fst <$> Path seed nr σ = Some ("", Some (UnknownRouteParameter extra)).
Proof.
  intros Hl Hr Hnd Hdom Hextra Hnot.
  destruct (range_first_any (consume (placeholders (Strings.Split (route nr))) m) extra)
    as [seed Hseed].
  { apply elem_of_dom in Hextra as [v Hv]. apply elem_of_dom. exists v.
    rewrite lookup_consume. by rewrite decide_False. }
  exists seed. rewrite (Path_complete seed nr σ m) by done. by rewrite Hseed.
Qed.

(** C10 (as amended).  For every template in which a parameter name
    appears in two or more placeholder segments, [Path] never succeeds:
    it fails with [RouteParameterNotSet] carrying the name of a
    placeholder of the template.  The name is the repeated one, even
    though a binding for it was supplied, when the placeholders before
    its second occurrence are bound and carry pairwise distinct names:
    the first occurrence has consumed the binding. *)
Theorem Path_repeated_parameter (seed : nat) (nr : NamedRoute)
    (σ : gmap positive (gmap string string)) (m : gmap string string) :
  σ !! parameters nr = Some m →
  ¬ NoDup (placeholders (Strings.Split (route nr))) →
  (∃ q σ', q ∈ placeholders (Strings.Split (route nr)) ∧
     Path seed nr σ = Some (("", Some (RouteParameterNotSet q)), σ')) ∧
  (∀ pre p rest,
     placeholders (Strings.Split (route nr)) = pre ++ p :: rest →
     p ∈ pre → NoDup pre → (∀ q, q ∈ pre → q ∈ dom m) →
     Path seed nr σ
     = Some (("", Some (RouteParameterNotSet p)),
             <[parameters nr := consume pre m]> σ)).
Proof.
  intros Hl Hdup. split.
  - destruct (placeholders_cases (placeholders (Strings.Split (route nr))) m)
      as [[Hnd _]|(pre & p & rest & Hps & Hnd & Hdom & Hp)]; [done|].
    exists p, (<[parameters nr := consume pre m]> σ). split.
    + rewrite Hps. apply elem_of_app. right. left.
    + by apply (Path_abort seed nr σ m pre p rest).
  - intros pre p rest Hps Hin Hnd Hdom.
    apply (Path_abort seed nr σ m pre p rest); auto.
Qed.

Lemma Path_repeated_parameter_witness :
  Path 0 {| name := "twice"; route := "/a/:id/b/:id"; parameters := 1 |}
    {[ 1%positive := {[ "id" := "3" ]} ]}
  = Some (("", Some (RouteParameterNotSet "id")), {[ 1%positive := ∅ ]}).
Proof.
  destruct (Path_repeated_parameter 0
              {| name := "twice"; route := "/a/:id/b/:id"; parameters := 1 |}
              {[ 1%positive := {[ "id" := "3" ]} ]} {[ "id" := "3" ]})
    as [_ Hrepeated]; [compute_done..|].
  etrans.
  - apply (Hrepeated ["id"] "id" []).
    + reflexivity.
    + compute_done.
    + compute_done.
    + intros q ->%list_elem_of_singleton. compute_done.
  - vm_compute. reflexivity.
Defined.

(** C10, as stated, fails when another placeholder stops the walk first:
    in [/user/:user/item/:id/copy/:id] with only [id] bound, the name
    [id] appears twice and is bound, but the error carries [user]. *)
Lemma Path_repeated_parameter_counterexample :
  placeholders (Strings.Split "/user/:user/item/:id/copy/:id") = ["user"; "id"; "id"] ∧
  Examples.result
    (Examples.run 0 [("copy", "/user/:user/item/:id/copy/:id")] "copy" [("id", "3")])
  = Some ("", Some (RouteParameterNotSet "user")).
Proof. vm_compute. done. Qed.

(** C4.  For every name that is not in the registry, [Reverse] returns a
    handle (with the requested name, the empty template and a fresh,
    empty binding map), and [Path] on that handle fails with
    [NoRouteDefinedError] carrying the requested name and returns the
    empty string. *)
Theorem Reverse_undefined (seed : nat) (router : NamedRouter) (name : string)
    (σ : gmap positive (gmap string string)) :
  σ !! names router ≫= (.!! name) = None →
  Reverse router name σ
  = Some ({| name := name; route := ""; parameters := fresh (dom σ) |},
          <[fresh (dom σ) := ∅]> σ) ∧
  (route ← Reverse router name; Path seed route) σ
  = Some (("", Some (NoRouteDefinedError name)), <[fresh (dom σ) := ∅]> σ).
Proof.
  intros Hname.
  assert (Reverse router name σ
          = Some ({| name := name; route := ""; parameters := fresh (dom σ) |},
                  <[fresh (dom σ) := ∅]> σ)) as HR.
  { unfold Reverse. rewrite run_bind. unfold map_index. by rewrite Hname. }
  split; [done|]. rewrite run_bind, HR. by apply Path_undefined.
Qed.

(** The "no route defined" test. *)
Lemma Reverse_undefined_witness :
  (route ← Reverse {| names := 1 |} "unknown"; Path 0 route)
    {[ 1%positive := {[ "root" := "/"; "user" := "/user/:id" ]} ]}
  = Some (("", Some (NoRouteDefinedError "unknown")),
          {[ 1%positive := {[ "root" := "/"; "user" := "/user/:id" ]};
             2%positive := ∅ ]}).
Proof.
  etrans.
  - apply (Reverse_undefined 0 {| names := 1 |} "unknown"
             {[ 1%positive := {[ "root" := "/"; "user" := "/user/:id" ]} ]}).
    reflexivity.
  - vm_compute. reflexivity.
Defined.

(** ** Groups *)

Lemma Join_cons_app (a p : string) (ps : list string) :
  Strings.Join ((a +:+ "/" +:+ p) :: ps) = a +:+ "/" +:+ Strings.Join (p :: ps).
Proof.
  destruct ps as [|q ps]; [done|].
  cbn [Strings.Join]. by rewrite !str_app_assoc.
Qed.

Lemma descend_basePath (ng : NamedGroup) (prefixes : list string)
    (σ : gmap positive (gmap string string)) :
  descend ng prefixes σ
  = Some ({| namedRouter := namedRouter ng;
             basePath := Strings.Join (basePath ng :: prefixes) |}, σ).
Proof.
  revert ng. induction prefixes as [|p ps IH]; intros ng.
  - by destruct ng.
  - cbn [descend]. rewrite run_bind. unfold NamedGroup_NamedGroup at 1.
    cbn. rewrite IH. cbn [namedRouter basePath]. by rewrite Join_cons_app.
Qed.

(** C7.  Registering a name through a group nested under the prefixes
    [prefix], [prefixes] stores in the registry of the router, for each
    of the HTTP methods, the template made of the prefixes joined with
    [/] followed by the relative path. *)
Theorem NamedGroup_registers_absolute (meth : method) (router : NamedRouter)
    (prefix : string) (prefixes : list string) (name relativePath : string)
    (σ : gmap positive (gmap string string)) (registry : gmap string string) :
  σ !! names router = Some registry →
  (ng ← nested_group router prefix prefixes;
   NamedGroup_register meth ng name relativePath) σ
  = Some (tt, <[names router :=
                  <[name := Strings.Join (prefix :: prefixes) +:+ relativePath]> registry]> σ).
Proof.
  intros Hreg. rewrite run_bind. unfold nested_group. rewrite run_bind.
  unfold NamedRouter_NamedGroup at 1. cbn. rewrite descend_basePath.
  cbn [namedRouter basePath].
  destruct meth; cbn; unfold NamedGroup_Post, NamedGroup_Get, NamedGroup_Delete,
    NamedGroup_Patch, NamedGroup_Put, NamedGroup_Options, NamedGroup_Head;
    cbn [namedRouter basePath]; by rewrite (run_map_assign _ _ _ _ registry).
Qed.

(** The groups of [Example]: [/api], then [v1], and the route [/submit]. *)
Lemma NamedGroup_registers_absolute_witness :
  (ng ← nested_group {| names := 1 |} "/api" ["v1"];
   NamedGroup_register POST ng "v1-submit" "/submit")
    {[ 1%positive := {[ "root" := "/" ]} ]}
  = Some (tt, {[ 1%positive := {[ "root" := "/"; "v1-submit" := "/api/v1/submit" ]} ]}).
Proof.
  etrans.
  - apply (NamedGroup_registers_absolute POST {| names := 1 |} "/api" ["v1"]
             "v1-submit" "/submit" {[ 1%positive := {[ "root" := "/" ]} ]}
             {[ "root" := "/" ]}).
    reflexivity.
  - vm_compute. reflexivity.
Defined.

(** ** Handles and their bindings *)

Lemma range_first_small (seed seed' : nat) (m : gmap string string) :
  size m ≤ 1 → range_first seed m = range_first seed' m.
Proof.
  intros Hsize. unfold range_first.
  assert (length (map_to_list m).*1 = size m) as Hlen.
  { by rewrite length_fmap, length_map_to_list. }
  destruct ((map_to_list m).*1) as [|k ks]; [done|].
  cbn in Hlen. assert (ks = []) as -> by (destruct ks; [done|cbn in Hlen; lia]).
  cbn [length]. by rewrite !Nat.mod_1_r.
Qed.

(** A call of [Path] that finds no binding to consume leaves the store
    as it was. *)
Lemma Path_untouched (seed : nat) (nr : NamedRoute)
    (σ : gmap positive (gmap string string)) (m : gmap string string) :
  σ !! parameters nr = Some m →
  (∀ p, p ∈ placeholders (Strings.Split (route nr)) → p ∉ dom m) →
  Path seed nr σ
  = Some (if decide (route nr = "") then ("", Some (NoRouteDefinedError (name nr)))
          else match placeholders (Strings.Split (route nr)) with
               | p :: _ => ("", Some (RouteParameterNotSet p))
               | [] => match range_first seed m with
                       | Some key => ("", Some (UnknownRouteParameter key))
                       | None => ("/" +:+ joined m (Strings.Split (route nr)), None)
                       end
               end, σ).
Proof.
  intros Hl Hfree. case_decide as Hr; [by apply Path_undefined|].
  destruct (placeholders (Strings.Split (route nr))) as [|p rest] eqn:Hps.
  - rewrite (Path_complete seed nr σ m); rewrite ?Hps; try done.
    + cbn. by rewrite insert_id.
    + constructor.
    + by intros p ?%elem_of_nil.
  - rewrite (Path_abort seed nr σ m [] p rest); try done.
    + cbn. by rewrite insert_id.
    + constructor.
    + by intros q ?%elem_of_nil.
    + left. apply Hfree. left.
Qed.

Lemma Path_then_Path (seed seed' : nat) (nr : NamedRoute)
    (σ σ1 σ2 : gmap positive (gmap string string))
    (first second : string * option error) :
  Path seed nr σ = Some (first, σ1) →
  Path seed' nr σ1 = Some (second, σ2) →
  (first ← Path seed nr; second ← Path seed' nr; mret (first, second)) σ
  = Some ((first, second), σ2).
Proof. intros H1 H2. by rewrite run_bind, H1, run_bind, H2. Qed.

Lemma consume_head_gone (q : string) (ps : list string) (m : gmap string string) :
  q ∉ dom (consume (q :: ps) m).
Proof.
  intros [v Hv]%elem_of_dom. rewrite lookup_consume in Hv.
  by rewrite decide_True in Hv by left.
Qed.

(** C8 (as amended).  For every handle with a live binding map, calling
    [Path] twice yields the same (path, error) result both times exactly
    when the template is empty, or the first call fails with
    [RouteParameterNotSet] carrying the name of the first placeholder of
    the template, or the template has no placeholder and the two map
    iterations begin with the same key.  In particular the two results
    are the same, and the bindings are as they were, when the template
    is empty, when the first placeholder of the template is not bound
    (whatever else is bound), and when the template has no placeholder
    and the handle holds at most one binding. *)
Theorem Path_twice (seed seed' : nat) (nr : NamedRoute)
    (σ : gmap positive (gmap string string)) (m : gmap string string) :
  σ !! parameters nr = Some m →
  ∃ first second σ',
    (first ← Path seed nr; second ← Path seed' nr; mret (first, second)) σ
    = Some ((first, second), σ') ∧
    (first = second ↔
       route nr = "" ∨
       (∃ p, head (placeholders (Strings.Split (route nr))) = Some p ∧
             first = ("", Some (RouteParameterNotSet p))) ∨
       (placeholders (Strings.Split (route nr)) = [] ∧
        range_first seed m = range_first seed' m)) ∧
    (route nr = "" ∨
     (∃ p, head (placeholders (Strings.Split (route nr))) = Some p ∧ p ∉ dom m) ∨
     (placeholders (Strings.Split (route nr)) = [] ∧ size m ≤ 1) →
     first = second ∧ σ' = σ).
Proof.
  intros Hl. destruct (decide (route nr = "")) as [Hr|Hr].
  { exists ("", Some (NoRouteDefinedError (name nr))),
      ("", Some (NoRouteDefinedError (name nr))), σ.
    split; [|split].
    - apply (Path_then_Path seed seed' nr σ σ σ); by apply Path_undefined.
    - split; [by left|done].
    - done. }
  destruct (placeholders_cases (placeholders (Strings.Split (route nr))) m)
    as [[Hnd Hdom]|(pre & p & rest & Hps & Hnd & Hdom & Hp)].
  - pose proof (Path_complete seed nr σ m Hr Hl Hnd Hdom) as Hfirst.
    destruct (placeholders (Strings.Split (route nr))) as [|q ps] eqn:Hps.
    + cbn [consume foldl] in Hfirst. rewrite insert_id in Hfirst by done.
      pose proof (Path_complete seed' nr σ m Hr Hl) as Hsecond.
      rewrite Hps in Hsecond. specialize (Hsecond Hnd Hdom).
      cbn [consume foldl] in Hsecond. rewrite insert_id in Hsecond by done.
      eexists _, _, σ. split; [by apply (Path_then_Path seed seed' nr σ σ σ)|].
      split.
      * split.
        -- intros Heq. right. right. split; [done|].
           destruct (range_first seed m), (range_first seed' m); by simplify_eq.
        -- intros [?|[(p & Hhead & _)|[_ ->]]]; done.
      * intros [?|[(p & Hhead & _)|[_ Hsize]]]; [done..|].
        by rewrite (range_first_small seed seed' m).
    + set (m1 := consume (q :: ps) m) in *.
      set (σ1 := <[parameters nr := m1]> σ) in *.
      assert (σ1 !! parameters nr = Some m1) as Hl1 by apply lookup_insert_eq.
      pose proof (Path_abort seed' nr σ1 m1 [] q ps Hl1) as Hsecond.
      rewrite Hps in Hsecond. cbn [consume foldl app] in Hsecond.
      rewrite insert_id in Hsecond by done.
      specialize (Hsecond eq_refl NoDup_nil_2).
      eexists _, _, σ1. split; [|split].
      * apply (Path_then_Path seed seed' nr σ σ1 σ1); [exact Hfirst|].
        apply Hsecond; [by intros k ?%elem_of_nil|left; apply consume_head_gone].
      * split.
        -- intros Heq. by destruct (range_first seed m1).
        -- intros [?|[(p & _ & Heq)|[? _]]]; [done| |done].
           by destruct (range_first seed m1).
      * intros [?|[(p & [= <-] & Hp)|[? _]]]; [done| |done].
        exfalso. apply Hp, Hdom. left.
  - pose proof (Path_abort seed nr σ m pre p rest Hl Hps Hnd Hdom Hp) as Hfirst.
    destruct pre as [|q pre].
    + cbn [consume foldl] in Hfirst. rewrite insert_id in Hfirst by done.
      exists ("", Some (RouteParameterNotSet p)), ("", Some (RouteParameterNotSet p)), σ.
      split; [|split].
      * apply (Path_then_Path seed seed' nr σ σ σ); [done|].
        pose proof (Path_abort seed' nr σ m [] p rest Hl Hps Hnd Hdom Hp) as Hsecond.
        cbn [consume foldl] in Hsecond. by rewrite insert_id in Hsecond.
      * split; [|done]. intros _. right. left. exists p. by rewrite Hps.
      * done.
    + set (m1 := consume (q :: pre) m) in *.
      set (σ1 := <[parameters nr := m1]> σ) in *.
      assert (σ1 !! parameters nr = Some m1) as Hl1 by apply lookup_insert_eq.
      pose proof (Path_abort seed' nr σ1 m1 [] q (pre ++ p :: rest) Hl1 Hps
                    NoDup_nil_2) as Hsecond.
      cbn [consume foldl] in Hsecond. rewrite insert_id in Hsecond by done.
      exists ("", Some (RouteParameterNotSet p)), ("", Some (RouteParameterNotSet q)), σ1.
      split; [|split].
      * apply (Path_then_Path seed seed' nr σ σ1 σ1); [exact Hfirst|].
        apply Hsecond; [by intros k ?%elem_of_nil|left; apply consume_head_gone].
      * rewrite Hps. cbn [app head]. split.
        -- intros [= ->]. right. left. by exists q.
        -- intros [?|[(p' & [= <-] & [= ->])|[? _]]]; done.
      * rewrite Hps. cbn [app head].
        intros [?|[(p' & [= <-] & Hq)|[? _]]]; [done| |done].
        exfalso. apply Hq, Hdom. left.
Qed.

(** [/user/:id/item/:item] with only [item] bound, twice: the first
    placeholder is not bound, both calls fail alike and the binding of
    [item] stays. *)
Lemma Path_twice_witness :
  ∃ first second σ',
    (first ← Path 0 {| name := "user-item"; route := "/user/:id/item/:item"; parameters := 1 |};
     second ← Path 1 {| name := "user-item"; route := "/user/:id/item/:item"; parameters := 1 |};
     mret (first, second)) {[ 1%positive := {[ "item" := "book" ]} ]}
    = Some ((first, second), σ') ∧
    first = ("", Some (RouteParameterNotSet "id")) ∧
    first = second ∧
    σ' = {[ 1%positive := {[ "item" := "book" ]} ]}.
Proof.
  destruct (Path_twice 0 1
              {| name := "user-item"; route := "/user/:id/item/:item"; parameters := 1 |}
              {[ 1%positive := {[ "item" := "book" ]} ]} {[ "item" := "book" ]})
    as (first & second & σ' & Hrun & _ & Hsame); [reflexivity|].
  exists first, second, σ'. split; [exact Hrun|].
  destruct Hsame as [Hsecond Hstore].
  { right. left. exists "id". split; [reflexivity|compute_done]. }
  split; [|by split].
  rewrite <- Hsecond, Hstore in Hrun. vm_compute in Hrun. by injection Hrun as <-.
Defined.

(** C8, as stated, fails: on the handle of [/user/:id] with [id] bound,
    the first [Path] consumes the binding and returns [/user/3], and the
    second fails. *)
Lemma Path_twice_counterexample :
  Examples.result (Examples.run_twice 0 0 Examples.routes "user" [("id", "3")])
  = Some (("/user/3", None), ("", Some (RouteParameterNotSet "id"))).
Proof. vm_compute. reflexivity. Qed.

(** A binding may be consumed and the result still be the same: on
    [/a/:id/b/:id] with [id] bound both calls fail with the same error. *)
Example Path_twice_repeated :
  Examples.result
    (Examples.run_twice 0 0 [("twice", "/a/:id/b/:id")] "twice" [("id", "3")])
  = Some (("", Some (RouteParameterNotSet "id")), ("", Some (RouteParameterNotSet "id"))).
Proof. vm_compute. reflexivity. Qed.

(** C9 (as amended).  [With(key, value)] writes the pair into the binding
    map that the handle shares with all its copies and returns the handle
    itself: afterwards the binding set observable through the original
    handle, and through the returned one, is the earlier set with [key]
    bound to [value].  For a repeated key the last write wins. *)
Theorem With_shares_bindings (nr : NamedRoute) (key value value' : string)
    (σ : gmap positive (gmap string string)) (m : gmap string string) :
  σ !! parameters nr = Some m →
  With nr key value σ
  = Some (nr, <[parameters nr := <[key := value]> m]> σ) ∧
  (nr' ← With nr key value; bindings nr) σ
  = Some (<[key := value]> m, <[parameters nr := <[key := value]> m]> σ) ∧
  (nr' ← With nr key value; With nr' key value') σ
  = Some (nr, <[parameters nr := <[key := value']> m]> σ).
Proof.
  intros Hl.
  assert (With nr key value σ
          = Some (nr, <[parameters nr := <[key := value]> m]> σ)) as HW.
  { unfold With. by rewrite run_bind, (run_map_assign _ _ _ _ m). }
  split; [done|]. split.
  - rewrite run_bind, HW. unfold bindings. by rewrite lookup_insert_eq.
  - rewrite run_bind, HW. unfold With.
    rewrite run_bind, (run_map_assign _ _ _ _ (<[key := value]> m))
      by apply lookup_insert_eq.
    by rewrite insert_insert_eq, insert_insert_eq.
Qed.

Lemma With_shares_bindings_witness :
  (nr' ← With {| name := "user"; route := "/user/:id"; parameters := 1 |} "id" "3";
   bindings {| name := "user"; route := "/user/:id"; parameters := 1 |})
    {[ 1%positive := ∅ ]}
  = Some ({[ "id" := "3" ]}, {[ 1%positive := {[ "id" := "3" ]} ]}).
Proof.
  etrans.
  - apply (With_shares_bindings
             {| name := "user"; route := "/user/:id"; parameters := 1 |}
             "id" "3" "4" {[ 1%positive := ∅ ]} ∅).
    reflexivity.
  - vm_compute. reflexivity.
Defined.

(** C9, as stated, fails: [With] on the returned handle changes the
    binding set observable through the original handle. *)
Lemma With_shares_bindings_counterexample :
  Examples.result
    (router ← New;
     NamedRouter_Get router "user-item" "/user/:id/item/:item";;
     original ← Reverse router "user-item";
     returned ← With original "id" "3";
     before ← bindings original;
     With returned "item" "book";;
     after ← bindings original;
     mret (before, after))
  = Some ({[ "id" := "3" ]}, {[ "id" := "3"; "item" := "book" ]}).
Proof. vm_compute. reflexivity. Qed.

(** * Further properties of the package *)

(** ** What [Path] leaves alone *)

Section frame.
Variable nr : NamedRoute.
Implicit Types (url : string) (parts : list string) (i last : nat).
Implicit Types (σ : gmap positive (gmap string string)).

(** The walk keeps the locations of the store, changes no map but the
    one of the handle, only removes bindings from that one, and only
    appends to the builder. *)
Lemma Path_loop_frame parts i last url σ r σ' :
  Path_loop nr parts i last url σ = Some (r, σ') →
  dom σ' = dom σ ∧
  (∀ l, l ≠ parameters nr → σ' !! l = σ !! l) ∧
  default ∅ (σ' !! parameters nr) ⊆ default ∅ (σ !! parameters nr) ∧
  (∀ out, r = inl out → ∃ written, out = url +:+ written).
Proof.
  revert i url σ. induction parts as [|part parts IH]; intros i url σ Hrun.
  - cbn in Hrun. injection Hrun as <- <-. repeat split; [done..|].
    intros out [= <-]. exists "". by rewrite str_app_nil_r.
  - destruct part as [|c param]; [by apply (IH (S i))|]. cbn [Path_loop] in Hrun.
    destruct (is_marker c).
    + rewrite run_bind in Hrun. unfold map_lookup in Hrun.
      destruct (σ !! parameters nr ≫= (.!! param)) as [value|] eqn:Hv.
      * rewrite run_bind in Hrun. unfold map_delete in Hrun.
        apply IH in Hrun as (Hdom & Hother & Hsub & Hout).
        split; [by rewrite Hdom, dom_alter_L|]. split; [|split].
        -- intros l Hl. rewrite Hother by done. by rewrite lookup_alter_ne.
        -- etrans; [exact Hsub|]. rewrite lookup_alter_eq.
           destruct (σ !! parameters nr) as [m|]; [|done]. apply delete_subseteq.
        -- intros out Hr. destruct (Hout out Hr) as [written ->].
           destruct (i <? last).
           ++ exists (value +:+ "/" +:+ written). by rewrite !str_app_assoc.
           ++ exists (value +:+ written). by rewrite !str_app_assoc.
      * injection Hrun as <- <-. by repeat split.
    + apply IH in Hrun as (Hdom & Hother & Hsub & Hout).
      repeat split; [done..|]. intros out Hr. destruct (Hout out Hr) as [written ->].
      destruct (i <? last).
      * exists (String c param +:+ "/" +:+ written). by rewrite !str_app_assoc.
      * exists (String c param +:+ written). by rewrite !str_app_assoc.
Qed.

End frame.

(** X1.  [Path] never panics; it keeps the locations of the store,
    changes no map other than the binding map of its handle (the
    registry in particular), and in that map it only deletes: the
    bindings after the call are a subset of the bindings before it. *)
Theorem Path_frame (seed : nat) (nr : NamedRoute)
    (σ : gmap positive (gmap string string)) :
  ∃ result σ',
    Path seed nr σ = Some (result, σ') ∧
    dom σ' = dom σ ∧
    (∀ l, l ≠ parameters nr → σ' !! l = σ !! l) ∧
    default ∅ (σ' !! parameters nr) ⊆ default ∅ (σ !! parameters nr).
Proof.
  destruct (Path_total seed nr σ) as [[result σ'] Hrun].
  exists result, σ'. split; [done|]. unfold Path in Hrun.
  case_decide; [by injection Hrun as <- <-|].
  rewrite run_bind in Hrun.
  destruct (Path_loop nr _ 0 _ "/" σ) as [[r σ1]|] eqn:Hloop; [|done].
  apply Path_loop_frame in Hloop as (Hdom & Hother & Hsub & _).
  assert (σ' = σ1) as ->; [|done].
  destruct r as [url|err]; [|by injection Hrun as _ <-].
  rewrite run_bind in Hrun. unfold map_len in Hrun.
  destruct (0 <? _); [|by injection Hrun as _ <-].
  rewrite run_bind in Hrun. unfold map_range_first in Hrun.
  destruct (range_first seed _); by injection Hrun as _ <-.
Qed.

(** X2.  [Path] returns either an error together with the empty string,
    or no error together with a path that begins with [/]; so the path
    is empty exactly when there is an error. *)
Theorem Path_result_shape (seed : nat) (nr : NamedRoute)
    (σ : gmap positive (gmap string string)) :
  match Path seed nr σ with
  | Some ((out, None), _) => Strings.HasPrefixSlash out = true
  | Some ((out, Some _), _) => out = ""
  | None => False
  end.
Proof.
  unfold Path. case_decide; [done|]. rewrite run_bind.
  destruct (Path_loop_total nr (Strings.Split (route nr)) 0
              (length (Strings.Split (route nr)) - 1) "/" σ) as [[r σ1] Hloop].
  rewrite Hloop. pose proof Hloop as Hframe.
  apply Path_loop_frame in Hframe as (_ & _ & _ & Hout).
  destruct r as [url|err]; [|done]. destruct (Hout url eq_refl) as [written ->].
  rewrite run_bind. unfold map_len. destruct (0 <? _); [|done].
  rewrite run_bind. unfold map_range_first. by destruct (range_first seed _).
Qed.

(** ** When [Path] succeeds, and what a second call does *)

(** A success tells what the template and the bindings were. *)
Lemma Path_success_inv (seed : nat) (nr : NamedRoute)
    (σ σ' : gmap positive (gmap string string)) (m : gmap string string)
    (out : string) :
  σ !! parameters nr = Some m →
  Path seed nr σ = Some ((out, None), σ') →
  route nr ≠ "" ∧
  NoDup (placeholders (Strings.Split (route nr))) ∧
  dom m = list_to_set (placeholders (Strings.Split (route nr))).
Proof.
  intros Hl Hrun.
  destruct (decide (route nr = "")) as [Hr|Hr].
  { by rewrite Path_undefined in Hrun. }
  destruct (placeholders_cases (placeholders (Strings.Split (route nr))) m)
    as [[Hnd Hdom]|(pre & p & rest & Hps & Hnd & Hdom & Hp)].
  2:{ by rewrite (Path_abort seed nr σ m pre p rest) in Hrun. }
  split; [done|]. split; [done|].
  rewrite (Path_complete seed nr σ m) in Hrun by done.
  destruct (range_first seed _) as [key|] eqn:Hkey; [done|].
  apply set_eq. intros k. rewrite elem_of_list_to_set. split; [|apply Hdom].
  intros [v Hv]%elem_of_dom.
  destruct (decide (k ∈ placeholders (Strings.Split (route nr)))) as [|Hk]; [done|].
  destruct (range_first_is_Some seed
              (consume (placeholders (Strings.Split (route nr))) m)) as [key Hkey'].
  - intros Hempty.
    assert (consume (placeholders (Strings.Split (route nr))) m !! k = Some v) as Hv'.
    { rewrite lookup_consume. by rewrite decide_False. }
    by rewrite Hempty, lookup_empty in Hv'.
  - by rewrite Hkey in Hkey'.
Qed.

(** X3.  [Path] succeeds exactly when the template is non-empty, its
    placeholder segments carry pairwise distinct parameter names, and the
    keys bound in the handle are exactly those names. *)
Theorem Path_succeeds_iff (seed : nat) (nr : NamedRoute)
    (σ : gmap positive (gmap string string)) (m : gmap string string) :
  σ !! parameters nr = Some m →
  (∃ out σ', Path seed nr σ = Some ((out, None), σ')) ↔
  route nr ≠ "" ∧
  NoDup (placeholders (Strings.Split (route nr))) ∧
  dom m = list_to_set (placeholders (Strings.Split (route nr))).
Proof.
  intros Hl. split.
  - intros (out & σ' & Hrun). by eapply Path_success_inv.
  - intros (Hr & Hnd & Hdom). eexists _, _.
    rewrite (Path_complete seed nr σ m); try done.
    2:{ intros p Hin. rewrite Hdom. by apply elem_of_list_to_set. }
    rewrite consume_all.
    2:{ intros k. rewrite Hdom. by intros ?%elem_of_list_to_set. }
    by rewrite range_first_empty.
Qed.

(** [/user/:id/item/:item] with exactly [id] and [item] bound succeeds. *)
Lemma Path_succeeds_iff_witness :
  ∃ out σ',
    Path 0 {| name := "user-item"; route := "/user/:id/item/:item"; parameters := 1 |}
      {[ 1%positive := {[ "id" := "3"; "item" := "book" ]} ]}
    = Some ((out, None), σ').
Proof.
  apply (Path_succeeds_iff 0
           {| name := "user-item"; route := "/user/:id/item/:item"; parameters := 1 |}
           {[ 1%positive := {[ "id" := "3"; "item" := "book" ]} ]}
           {[ "id" := "3"; "item" := "book" ]}).
  - reflexivity.
  - split; [done|]. split; compute_done.
Defined.

(** X4.  A successful [Path] leaves the handle without bindings, so a
    second [Path] on the same handle returns the same path when the
    template has no placeholder, and otherwise fails with
    [RouteParameterNotSet] carrying the name of the first placeholder of
    the template. *)
Theorem Path_after_success (seed seed' : nat) (nr : NamedRoute)
    (σ σ' : gmap positive (gmap string string)) (m : gmap string string)
    (out : string) :
  σ !! parameters nr = Some m →
  Path seed nr σ = Some ((out, None), σ') →
  σ' !! parameters nr = Some ∅ ∧
  Path seed' nr σ'
  = Some (match placeholders (Strings.Split (route nr)) with
          | [] => (out, None)
          | p :: _ => ("", Some (RouteParameterNotSet p))
          end, σ').
Proof.
  intros Hl Hrun.
  destruct (Path_success_inv seed nr σ σ' m out Hl Hrun) as (Hr & Hnd & Hdom).
  rewrite (Path_complete seed nr σ m) in Hrun; try done.
  2:{ intros p Hin. rewrite Hdom. by apply elem_of_list_to_set. }
  rewrite consume_all in Hrun.
  2:{ intros k. rewrite Hdom. by intros ?%elem_of_list_to_set. }
  rewrite range_first_empty in Hrun. injection Hrun as <- <-.
  assert (<[parameters nr := ∅]> σ !! parameters nr = Some (∅ : gmap string string))
    as Hl' by apply lookup_insert_eq.
  split; [done|].
  rewrite (Path_untouched seed' nr _ ∅ Hl').
  2:{ intros p _. by rewrite dom_empty_L. }
  rewrite decide_False by done.
  destruct (placeholders (Strings.Split (route nr))) as [|p ps] eqn:Hps; [|done].
  rewrite range_first_empty, (joined_ext ∅ m); [done|].
  intros p Hp. rewrite Hps in Hp. by apply elem_of_nil in Hp.
Qed.

(** [/item/*splat] built twice. *)
Lemma Path_after_success_witness :
  Path 1 {| name := "item-splat"; route := "/item/*splat"; parameters := 1 |}
    {[ 1%positive := ∅ ]}
  = Some (("", Some (RouteParameterNotSet "splat")), {[ 1%positive := ∅ ]}).
Proof.
  destruct (Path_after_success 0 1
              {| name := "item-splat"; route := "/item/*splat"; parameters := 1 |}
              {[ 1%positive := {[ "splat" := "records/7" ]} ]} {[ 1%positive := ∅ ]}
              {[ "splat" := "records/7" ]} "/item/records/7") as [_ Hsecond].
  - reflexivity.
  - vm_compute. reflexivity.
  - exact Hsecond.
Defined.

(** ** The order of the map iteration *)

(** X5.  The iteration order of Go's map range influences nothing but
    the key that an [UnknownRouteParameter] carries: under two orders
    [Path] leaves the same store, and returns the same result unless both
    results are [UnknownRouteParameter] errors, each carrying a key that
    was bound in the handle. *)
Theorem Path_iteration_order (seed seed' : nat) (nr : NamedRoute)
    (σ : gmap positive (gmap string string)) :
  Path seed nr σ = Path seed' nr σ ∨
  ∃ key key' σ',
    Path seed nr σ = Some (("", Some (UnknownRouteParameter key)), σ') ∧
    Path seed' nr σ = Some (("", Some (UnknownRouteParameter key')), σ') ∧
    key ∈ dom (default ∅ (σ !! parameters nr)) ∧
    key' ∈ dom (default ∅ (σ !! parameters nr)).
Proof.
  unfold Path. case_decide; [by left|]. rewrite !run_bind.
  destruct (Path_loop nr _ 0 _ "/" σ) as [[r σ1]|] eqn:Hloop; [|by left].
  apply Path_loop_frame in Hloop as (_ & _ & Hsub & _).
  destruct r as [url|err]; [|by left].
  rewrite !run_bind. unfold map_len. destruct (0 <? _); [|by left].
  rewrite !run_bind. unfold map_range_first.
  destruct (range_first seed _) as [key|] eqn:Hkey;
    destruct (range_first seed' _) as [key'|] eqn:Hkey'.
  - right. exists key, key', σ1. repeat split.
    + apply range_first_elem in Hkey. by eapply subseteq_dom in Hkey.
    + apply range_first_elem in Hkey'. by eapply subseteq_dom in Hkey'.
  - apply range_first_elem in Hkey.
    destruct (range_first_is_Some seed' (default ∅ (σ1 !! parameters nr))) as [k Hk].
    + intros Hempty. rewrite Hempty in Hkey. by rewrite dom_empty_L in Hkey.
    + by rewrite Hkey' in Hk.
  - apply range_first_elem in Hkey'.
    destruct (range_first_is_Some seed (default ∅ (σ1 !! parameters nr))) as [k Hk].
    + intros Hempty. rewrite Hempty in Hkey'. by rewrite dom_empty_L in Hkey'.
    + by rewrite Hkey in Hk.
  - by left.
Qed.

(** X6.  When the walk is complete and two different keys are left over,
    the error is not determined: each of the two keys is the one that
    [UnknownRouteParameter] carries under some iteration order. *)
Theorem Path_unknown_parameter_varies (nr : NamedRoute)
    (σ : gmap positive (gmap string string)) (m : gmap string string)
    (extra extra' : string) :
  σ !! parameters nr = Some m →
  route nr ≠ "" →
  NoDup (placeholders (Strings.Split (route nr))) →
  (∀ p, p ∈ placeholders (Strings.Split (route nr)) → p ∈ dom m) →
  extra ∈ dom m → extra ∉ placeholders (Strings.Split (route nr)) →
  extra' ∈ dom m → extra' ∉ placeholders (Strings.Split (route nr)) →
  ∃ seed seed' σ',
    Path seed nr σ = Some (("", Some (UnknownRouteParameter extra)), σ') ∧
    Path seed' nr σ = Some (("", Some (UnknownRouteParameter extra')), σ').
Proof.
  intros Hl Hr Hnd Hdom Hin Hnot Hin' Hnot'.
  set (m' := consume (placeholders (Strings.Split (route nr))) m).
  assert (∀ k, k ∈ dom m → k ∉ placeholders (Strings.Split (route nr)) → k ∈ dom m')
    as Hleft.
  { intros k [v Hv]%elem_of_dom Hk. apply elem_of_dom. exists v.
    unfold m'. rewrite lookup_consume. by rewrite decide_False. }
  destruct (range_first_any m' extra) as [seed Hseed]; [by apply Hleft|].
  destruct (range_first_any m' extra') as [seed' Hseed']; [by apply Hleft|].
  exists seed, seed', (<[parameters nr := m']> σ).
  rewrite !(Path_complete _ nr σ m) by done. fold m'. by rewrite Hseed, Hseed'.
Qed.

(** [/about/us] with the stray bindings [a] and [b]. *)
Lemma Path_unknown_parameter_varies_witness :
  ∃ seed seed' σ',
    Path seed {| name := "about"; route := "/about/us"; parameters := 1 |}
      {[ 1%positive := {[ "a" := "1"; "b" := "2" ]} ]}
    = Some (("", Some (UnknownRouteParameter "a")), σ') ∧
    Path seed' {| name := "about"; route := "/about/us"; parameters := 1 |}
      {[ 1%positive := {[ "a" := "1"; "b" := "2" ]} ]}
    = Some (("", Some (UnknownRouteParameter "b")), σ').
Proof.
  apply (Path_unknown_parameter_varies
           {| name := "about"; route := "/about/us"; parameters := 1 |}
           {[ 1%positive := {[ "a" := "1"; "b" := "2" ]} ]}
           {[ "a" := "1"; "b" := "2" ]} "a" "b").
  - reflexivity.
  - done.
  - compute_done.
  - intros p Hp. by apply elem_of_nil in Hp.
  - compute_done.
  - compute_done.
  - compute_done.
  - compute_done.
Defined.

(** ** The registry *)

Section gin.
Variable gin_returns : list registration → registration → bool.
Implicit Types (r : registration) (earlier later rs : list registration).
Implicit Types (σ : gmap positive (gmap string string)) (registry : gmap string string).

Lemma register_registers router earlier r σ registry :
  σ !! names router = Some registry →
  register gin_returns router earlier r σ
  = if gin_returns earlier r
    then Some (tt, <[names router :=
                       <[registered_name r := registered_template r]> registry]> σ)
    else None.
Proof.
  intros Hreg. destruct r as [meth name relativePath|meth prefix prefixes name relativePath].
  - cbn [register registered_name registered_template]. rewrite run_bind.
    replace (NamedRouter_register meth router name relativePath σ)
      with (Some (tt, <[names router := <[name := relativePath]> registry]> σ)).
    + unfold gin_call. by destruct (gin_returns _ _).
    + destruct meth; cbn;
        unfold NamedRouter_Post, NamedRouter_Get, NamedRouter_Delete, NamedRouter_Patch,
          NamedRouter_Put, NamedRouter_Options, NamedRouter_Head;
        by rewrite (run_map_assign _ _ _ _ registry).
  - cbn [register registered_name registered_template].
    rewrite run_bind. unfold nested_group. rewrite run_bind.
    unfold NamedRouter_NamedGroup at 1. cbn. rewrite descend_basePath.
    cbn [namedRouter basePath]. rewrite run_bind.
    replace (NamedGroup_register meth _ name relativePath σ)
      with (Some (tt, <[names router :=
                          <[name := Strings.Join (prefix :: prefixes) +:+ relativePath]>
                            registry]> σ)).
    + unfold gin_call. by destruct (gin_returns _ _).
    + destruct meth; cbn; unfold NamedGroup_Post, NamedGroup_Get, NamedGroup_Delete,
        NamedGroup_Patch, NamedGroup_Put, NamedGroup_Options, NamedGroup_Head;
        cbn [namedRouter basePath]; by rewrite (run_map_assign _ _ _ _ registry).
Qed.

Lemma register_all_registers router earlier rs σ registry :
  σ !! names router = Some registry →
  register_all gin_returns router earlier rs σ
  = if all_return gin_returns earlier rs
    then Some (tt, <[names router :=
                       foldl (λ reg r, <[registered_name r := registered_template r]> reg)
                         registry rs]> σ)
    else None.
Proof.
  revert earlier σ registry. induction rs as [|r rs IH]; intros earlier σ registry Hreg.
  - cbn. by rewrite insert_id.
  - cbn [register_all all_return foldl].
    rewrite run_bind, (register_registers _ _ _ _ registry) by done.
    destruct (gin_returns earlier r); [|done]. cbn [andb].
    rewrite (IH _ _ (<[registered_name r := registered_template r]> registry))
      by apply lookup_insert_eq.
    destruct (all_return _ _ rs); [|done]. by rewrite insert_insert_eq.
Qed.

End gin.

Lemma foldl_register_lookup (rs : list registration) (registry : gmap string string)
    (name : string) :
  name ∉ registered_name <$> rs →
  foldl (λ reg r, <[registered_name r := registered_template r]> reg) registry rs !! name
  = registry !! name.
Proof.
  revert registry. induction rs as [|r rs IH]; intros registry Hnot; [done|].
  cbn [foldl]. rewrite IH.
  - apply lookup_insert_ne. intros Heq. apply Hnot. rewrite <- Heq. left.
  - intros Hin. apply Hnot. by right.
Qed.

(** X7.  A sequence of registration calls, made at the router or through
    groups of any depth by any of the seven methods, either panics in
    one of its calls into gin, and then nothing after that call is
    reached, or runs to its end; in that case [Reverse] resolves a name
    to the template of the last call that registered it: earlier
    registrations of the name have been overwritten without an error,
    registrations of other names do not matter, no map but the registry
    has changed, and the handle comes with a new, empty binding map. *)
Theorem Reverse_after_registrations
    (gin_returns : list registration → registration → bool)
    (router : NamedRouter)
    (earlier : list registration) (r : registration) (later : list registration)
    (σ : gmap positive (gmap string string)) (registry : gmap string string) :
  σ !! names router = Some registry →
  registered_name r ∉ registered_name <$> later →
  ∃ σ' fresh_map,
    (register_all gin_returns router [] (earlier ++ r :: later);;
     Reverse router (registered_name r)) σ
    = (if all_return gin_returns [] (earlier ++ r :: later)
       then Some ({| name := registered_name r; route := registered_template r;
                     parameters := fresh_map |},
                  <[fresh_map := ∅]> σ')
       else None) ∧
    (fresh_map ∉ dom σ') ∧ dom σ' = dom σ ∧
    (∀ l, l ≠ names router → σ' !! l = σ !! l).
Proof.
  intros Hreg Hlast.
  set (final := foldl (λ reg r, <[registered_name r := registered_template r]> reg)
                  registry (earlier ++ r :: later)).
  assert (final !! registered_name r = Some (registered_template r)) as Hfinal.
  { unfold final. rewrite foldl_app. cbn [foldl].
    rewrite foldl_register_lookup by done. apply lookup_insert_eq. }
  exists (<[names router := final]> σ), (fresh (dom (<[names router := final]> σ))).
  split; [|split; [apply is_fresh|split]].
  - rewrite run_bind, (register_all_registers _ _ _ _ _ registry) by done. fold final.
    destruct (all_return _ _ _); [|done].
    by apply (Reverse_registered router _ _ _ final); [apply lookup_insert_eq|].
  - rewrite dom_insert_L. apply elem_of_dom_2 in Hreg.
    by apply subseteq_union_1_L, singleton_subseteq_l.
  - intros l Hl. by rewrite lookup_insert_ne.
Qed.

(** The registrations of [Example] with [v1-submit] registered twice,
    and a repeated route, run with the stand-in for gin. *)
Lemma Reverse_after_registrations_witness :
  (∃ σ' fresh_map,
    (register_all gin_rejects_repeats {| names := 1 |} []
       ([AtRouter GET "root" "/"; AtRouter GET "v1-submit" "/old"]
        ++ InGroup POST "/api" ["v1"] "v1-submit" "/submit"
        :: [InGroup GET "/api" [] "api-info" "/info"]);;
     Reverse {| names := 1 |} "v1-submit") {[ 1%positive := ∅ ]}
    = Some ({| name := "v1-submit"; route := "/api/v1/submit"; parameters := fresh_map |},
            <[fresh_map := ∅]> σ') ∧
    (fresh_map ∉ dom σ') ∧
    dom σ' = dom ({[ 1%positive := ∅ ]} : gmap positive (gmap string string)) ∧
    (∀ l, l ≠ 1%positive →
       σ' !! l = ({[ 1%positive := ∅ ]} : gmap positive (gmap string string)) !! l)) ∧
  (∃ (σ' : gmap positive (gmap string string)) (fresh_map : positive),
    (register_all gin_rejects_repeats {| names := 1 |} []
       ([AtRouter GET "a" "/x"] ++ AtRouter GET "b" "/x" :: []);;
     Reverse {| names := 1 |} "b") {[ 1%positive := ∅ ]}
    = None ∧
    (fresh_map ∉ dom σ') ∧
    dom σ' = dom ({[ 1%positive := ∅ ]} : gmap positive (gmap string string)) ∧
    (∀ l, l ≠ 1%positive →
       σ' !! l = ({[ 1%positive := ∅ ]} : gmap positive (gmap string string)) !! l)).
Proof.
  split.
  - apply (Reverse_after_registrations gin_rejects_repeats {| names := 1 |}
             [AtRouter GET "root" "/"; AtRouter GET "v1-submit" "/old"]
             (InGroup POST "/api" ["v1"] "v1-submit" "/submit")
             [InGroup GET "/api" [] "api-info" "/info"]
             {[ 1%positive := ∅ ]} ∅).
    + reflexivity.
    + compute_done.
  - apply (Reverse_after_registrations gin_rejects_repeats {| names := 1 |}
             [AtRouter GET "a" "/x"] (AtRouter GET "b" "/x") []
             {[ 1%positive := ∅ ]} ∅).
    + reflexivity.
    + compute_done.
Defined.

(** ** Fresh maps: handles and routers *)

Lemma Reverse_run (router : NamedRouter) (name : string)
    (σ : gmap positive (gmap string string)) :
  Reverse router name σ
  = Some ({| name := name;
             route := default "" (σ !! names router ≫= (.!! name));
             parameters := fresh (dom σ) |},
          <[fresh (dom σ) := ∅]> σ).
Proof. done. Qed.

Lemma New_run (σ : gmap positive (gmap string string)) :
  New σ = Some ({| names := fresh (dom σ) |}, <[fresh (dom σ) := ∅]> σ).
Proof. done. Qed.

Lemma fresh_lookup (σ : gmap positive (gmap string string)) :
  σ !! fresh (dom σ) = None.
Proof. apply not_elem_of_dom, is_fresh. Qed.

(** X8.  Every call of [Reverse] makes a binding map of its own: a
    binding added through one handle is not seen through a handle of
    another call, whether or not the two calls ask for the same name,
    and no map that existed before is changed. *)
Theorem Reverse_handles_independent (router : NamedRouter)
    (name name' key value : string) (σ : gmap positive (gmap string string)) :
  ∃ first second σ',
    (first ← Reverse router name;
     second ← Reverse router name';
     With first key value;;
     mret (first, second)) σ
    = Some ((first, second), σ') ∧
    parameters first ≠ parameters second ∧
    σ' !! parameters first = Some {[ key := value ]} ∧
    σ' !! parameters second = Some ∅ ∧
    (∀ l, l ∈ dom σ → σ' !! l = σ !! l).
Proof.
  set (l1 := fresh (dom σ)). set (σ1 := <[l1 := (∅ : gmap string string)]> σ).
  set (l2 := fresh (dom σ1)). set (σ2 := <[l2 := (∅ : gmap string string)]> σ1).
  assert (l1 ≠ l2) as Hne.
  { intros Heq. pose proof (fresh_lookup σ1) as Hfresh. fold l2 in Hfresh.
    rewrite <- Heq in Hfresh. unfold σ1 in Hfresh. by rewrite lookup_insert_eq in Hfresh. }
  assert (σ2 !! l1 = Some (∅ : gmap string string)) as Hl1.
  { unfold σ2. rewrite lookup_insert_ne by done. apply lookup_insert_eq. }
  eexists _, _, _. split; [|split; [|split; [|split]]].
  - rewrite run_bind, Reverse_run. fold l1 σ1.
    rewrite run_bind, Reverse_run. fold l2 σ2.
    rewrite run_bind. unfold With. rewrite run_bind.
    cbn [parameters]. rewrite (run_map_assign _ _ _ _ ∅) by done. reflexivity.
  - done.
  - cbn [parameters]. rewrite lookup_insert_eq. by rewrite insert_empty.
  - cbn [parameters]. rewrite lookup_insert_ne by done. apply lookup_insert_eq.
  - intros l Hl.
    assert (l ≠ l1) as Hl1' by (intros ->; by apply (is_fresh (dom σ))).
    assert (l ≠ l2) as Hl2'.
    { intros ->. apply (is_fresh (dom σ1)). fold l2. unfold σ1.
      rewrite dom_insert_L. apply elem_of_union. by right. }
    unfold σ2, σ1. by rewrite !lookup_insert_ne.
Qed.

Lemma With_run (nr : NamedRoute) (key value : string)
    (σ : gmap positive (gmap string string)) (m : gmap string string) :
  σ !! parameters nr = Some m →
  With nr key value σ = Some (nr, <[parameters nr := <[key := value]> m]> σ).
Proof. intros Hl. unfold With. by rewrite run_bind, (run_map_assign _ _ _ _ m). Qed.

Lemma With_all_run (nr : NamedRoute) (kvs : list (string * string))
    (σ : gmap positive (gmap string string)) (m : gmap string string) :
  σ !! parameters nr = Some m →
  With_all nr kvs σ
  = Some (nr, <[parameters nr := list_to_map (reverse kvs) ∪ m]> σ).
Proof.
  revert σ m. induction kvs as [|[k v] kvs IH]; intros σ m Hl.
  - cbn. by rewrite (left_id_L ∅ (∪)), insert_id.
  - change (With_all nr ((k, v) :: kvs)) with (nr' ← With nr k v; With_all nr' kvs).
    rewrite run_bind, (With_run nr k v σ m) by done.
    rewrite (IH _ (<[k := v]> m)) by apply lookup_insert_eq.
    rewrite insert_insert_eq.
    replace (list_to_map (reverse ((k, v) :: kvs)) ∪ m)
      with (list_to_map (reverse kvs) ∪ <[k := v]> m); [done|].
    rewrite reverse_cons, list_to_map_app. cbn [list_to_map foldr].
    rewrite <- (assoc_L (∪)). f_equal.
    by rewrite insert_union_singleton_l, insert_empty.
Qed.

(** X9.  A chain of [With] calls on a handle with a live binding map
    never panics, returns the handle itself, and leaves in the shared map
    the earlier bindings overridden by the pairs of the chain, a later
    pair overriding an earlier one with the same key.  When the keys of
    the chain are pairwise distinct, the order of the calls does not
    matter. *)
Theorem With_all_bindings (nr : NamedRoute) (kvs : list (string * string))
    (σ : gmap positive (gmap string string)) (m : gmap string string) :
  σ !! parameters nr = Some m →
  With_all nr kvs σ
  = Some (nr, <[parameters nr := list_to_map (reverse kvs) ∪ m]> σ) ∧
  (∀ kvs', NoDup kvs.*1 → kvs ≡ₚ kvs' → With_all nr kvs' σ = With_all nr kvs σ).
Proof.
  intros Hl. split; [by apply With_all_run|].
  intros kvs' Hnd Hperm. rewrite !(With_all_run nr _ σ m) by done.
  assert (list_to_map (reverse kvs') = (list_to_map (reverse kvs) : gmap string string))
    as ->; [|done].
  apply list_to_map_proper.
  - by rewrite fmap_reverse, reverse_Permutation, <- Hperm.
  - by rewrite !reverse_Permutation.
Qed.

(** [With("id", "3").With("item", "book").With("id", "4")]. *)
Lemma With_all_bindings_witness :
  With_all {| name := "user-item"; route := "/user/:id/item/:item"; parameters := 1 |}
    [("id", "3"); ("item", "book"); ("id", "4")] {[ 1%positive := {[ "old" := "x" ]} ]}
  = Some ({| name := "user-item"; route := "/user/:id/item/:item"; parameters := 1 |},
          {[ 1%positive := {[ "id" := "4"; "item" := "book"; "old" := "x" ]} ]}).
Proof.
  destruct (With_all_bindings
              {| name := "user-item"; route := "/user/:id/item/:item"; parameters := 1 |}
              [("id", "3"); ("item", "book"); ("id", "4")]
              {[ 1%positive := {[ "old" := "x" ]} ]} {[ "old" := "x" ]}) as [Hrun _].
  - reflexivity.
  - etrans; [exact Hrun|]. vm_compute. reflexivity.
Defined.

(** X10.  Two routers made by [New] have registries of their own: a
    name registered at one of them, by any method, is resolved by that
    one and is undefined for the other, and no map that existed before
    is changed. *)
Theorem New_routers_independent (seed : nat) (meth : method)
    (name relativePath : string) (σ : gmap positive (gmap string string)) :
  ∃ one other σ',
    (one ← New; other ← New;
     NamedRouter_register meth one name relativePath;;
     mret (one, other)) σ
    = Some ((one, other), σ') ∧
    σ' !! names one = Some {[ name := relativePath ]} ∧
    σ' !! names other = Some ∅ ∧
    (∀ l, l ∈ dom σ → σ' !! l = σ !! l) ∧
    fst <$> (handle ← Reverse one name; mret (route handle)) σ' = Some relativePath ∧
    fst <$> (handle ← Reverse other name; Path seed handle) σ'
    = Some ("", Some (NoRouteDefinedError name)).
Proof.
  set (l1 := fresh (dom σ)). set (σ1 := <[l1 := (∅ : gmap string string)]> σ).
  set (l2 := fresh (dom σ1)). set (σ2 := <[l2 := (∅ : gmap string string)]> σ1).
  assert (l1 ≠ l2) as Hne.
  { intros Heq. pose proof (fresh_lookup σ1) as Hfresh. fold l2 in Hfresh.
    rewrite <- Heq in Hfresh. unfold σ1 in Hfresh. by rewrite lookup_insert_eq in Hfresh. }
  assert (σ2 !! l1 = Some (∅ : gmap string string)) as Hl1.
  { unfold σ2. rewrite lookup_insert_ne by done. apply lookup_insert_eq. }
  exists {| names := l1 |}, {| names := l2 |},
    (<[l1 := <[name := relativePath]> ∅]> σ2).
  split; [|split; [|split; [|split; [|split]]]].
  - rewrite run_bind, New_run. fold l1 σ1.
    rewrite run_bind, New_run. fold l2 σ2.
    rewrite run_bind.
    destruct meth; cbn [NamedRouter_register];
      unfold NamedRouter_Post, NamedRouter_Get, NamedRouter_Delete, NamedRouter_Patch,
        NamedRouter_Put, NamedRouter_Options, NamedRouter_Head;
      cbn [names]; rewrite (run_map_assign _ _ _ _ ∅) by done; reflexivity.
  - cbn [names]. rewrite lookup_insert_eq. by rewrite insert_empty.
  - cbn [names]. rewrite lookup_insert_ne by done. apply lookup_insert_eq.
  - intros l Hl.
    assert (l ≠ l1) as Hl1' by (intros ->; by apply (is_fresh (dom σ))).
    assert (l ≠ l2) as Hl2'.
    { intros ->. apply (is_fresh (dom σ1)). fold l2. unfold σ1.
      rewrite dom_insert_L. apply elem_of_union. by right. }
    unfold σ2, σ1. by rewrite !lookup_insert_ne.
  - rewrite run_bind, Reverse_run. cbn [names].
    rewrite lookup_insert_eq. cbn. by rewrite lookup_insert_eq.
  - rewrite run_bind, Reverse_run. cbn [names].
    rewrite lookup_insert_ne by done. unfold σ2. rewrite lookup_insert_eq.
    cbn. by rewrite Path_undefined.
Qed.

(** ** Error messages *)

(** X11.  The message of an error identifies the error: two errors with
    the same [Error()] text are of the same type and carry the same
    name. *)
Theorem Error_identifies (e e' : error) : Error e = Error e' → e = e'.
Proof.
  destruct e as [s|s|s], e' as [s'|s'|s']; unfold Error; intros Heq;
    try (by cbv [String.app] in Heq; discriminate Heq);
    f_equal; by apply (inj (String.app _)) in Heq.
Qed.

Lemma Error_identifies_witness :
  RouteParameterNotSet ("i" +:+ "d") = RouteParameterNotSet "id".
Proof.
  apply (Error_identifies (RouteParameterNotSet ("i" +:+ "d")) (RouteParameterNotSet "id")).
  reflexivity.
Defined.

(** ** Markers *)

Section markers.
Variables nr nr' : NamedRoute.
Hypothesis same_map : parameters nr = parameters nr'.
Implicit Types (url : string) (parts : list string) (i last : nat).
Implicit Types (σ : gmap positive (gmap string string)).

Lemma Path_loop_same_segments parts parts' i last url σ :
  Forall2 same_segment parts parts' →
  Path_loop nr parts i last url σ = Path_loop nr' parts' i last url σ.
Proof.
  intros Hsame. revert i url σ.
  induction Hsame as [|part part' parts parts' Hpart _ IH]; intros i url σ; [done|].
  destruct Hpart as [<-|(param & Hph & Hph')].
  - destruct part as [|c p]; [apply IH|]. cbn [Path_loop].
    destruct (is_marker c); [|apply IH].
    rewrite !run_bind, <- same_map. unfold map_lookup.
    destruct (σ !! parameters nr ≫= (.!! p)); [|done].
    rewrite !run_bind. unfold map_delete. apply IH.
  - destruct part as [|c p]; [done|]. destruct part' as [|c' p']; [done|].
    cbn in Hph, Hph'. cbn [Path_loop].
    destruct (is_marker c); [|done]. destruct (is_marker c'); [|done].
    injection Hph as ->. injection Hph' as ->.
    rewrite !run_bind, <- same_map. unfold map_lookup.
    destruct (σ !! parameters nr ≫= (.!! param)); [|done].
    rewrite !run_bind. unfold map_delete. apply IH.
Qed.

End markers.

(** X12.  [Path] does not tell a named placeholder from a wildcard: two
    handles with the same name and binding map, whose templates differ
    only in the markers ([:] or [*]) of their placeholder segments, get
    the same result from [Path]. *)
Theorem Path_marker_blind (seed : nat) (nr nr' : NamedRoute)
    (σ : gmap positive (gmap string string)) :
  name nr = name nr' →
  parameters nr = parameters nr' →
  Forall2 same_segment (Strings.Split (route nr)) (Strings.Split (route nr')) →
  Path seed nr σ = Path seed nr' σ.
Proof.
  intros Hname Hmap Hsame.
  assert (∀ a b, Forall2 same_segment (Strings.Split a) (Strings.Split b) →
            a = "" → b = "") as Hempty.
  { intros a b Hab ->. cbn in Hab. rewrite <- (Join_Split b).
    inversion Hab as [|? part' ? parts' Hpart Hrest]; subst.
    inversion Hrest; subst.
    destruct Hpart as [<-|(param & Hph & _)]; [done|]. by cbn in Hph. }
  assert (Forall2 same_segment (Strings.Split (route nr')) (Strings.Split (route nr)))
    as Hsame'.
  { apply Forall2_flip. eapply Forall2_impl; [exact Hsame|].
    intros p q [->|(param & ? & ?)]; [by left|right; by exists param]. }
  unfold Path. destruct (decide (route nr = "")) as [Hr|Hr].
  - rewrite decide_True by (by eapply Hempty). by rewrite Hname.
  - rewrite decide_False by (intros Hr'; apply Hr; by eapply Hempty).
    rewrite !run_bind, <- (Forall2_length _ _ _ Hsame).
    rewrite (Path_loop_same_segments nr nr' Hmap _ _ _ _ _ _ Hsame).
    destruct (Path_loop nr' _ 0 _ "/" σ) as [[[url|err] σ1]|]; [|done..].
    by rewrite !run_bind, <- Hmap.
Qed.

(** [/item/*id] and [/item/:id]. *)
Lemma Path_marker_blind_witness :
  Path 0 {| name := "item"; route := "/item/*id"; parameters := 1 |}
    {[ 1%positive := {[ "id" := "7" ]} ]}
  = Path 0 {| name := "item"; route := "/item/:id"; parameters := 1 |}
      {[ 1%positive := {[ "id" := "7" ]} ]}.
Proof.
  apply (Path_marker_blind 0
           {| name := "item"; route := "/item/*id"; parameters := 1 |}
           {| name := "item"; route := "/item/:id"; parameters := 1 |}).
  - reflexivity.
  - reflexivity.
  - change (Forall2 same_segment [""; "item"; "*id"] [""; "item"; ":id"]).
    constructor; [by left|]. constructor; [by left|].
    constructor; [right; by exists "id"|]. constructor.
Defined.

(** ** Templates without placeholders are normalised *)

Lemma Split_slash_free (s part : string) :
  part ∈ Strings.Split s → slash_free part = true.
Proof.
  revert part. induction s as [|c s IH]; intros part; cbn [Strings.Split].
  - by intros ->%list_elem_of_singleton.
  - destruct (Ascii.eqb c "/") eqn:Ec.
    + intros [->|Hin]%elem_of_cons; [done|]. by apply IH.
    + pose proof (Split_nonempty s) as Hne.
      destruct (Strings.Split s) as [|p ps] eqn:E; [done|].
      intros [->|Hin]%elem_of_cons.
      * cbn. rewrite Ec. cbn. apply IH. left.
      * apply IH. by right.
Qed.

Lemma Split_single (p : string) : slash_free p = true → Strings.Split p = [p].
Proof.
  induction p as [|c p IH]; [done|]. cbn.
  intros [Hc Hp]%andb_true_iff. apply negb_true_iff in Hc. by rewrite Hc, IH.
Qed.

Lemma Split_app_slash (p s : string) :
  slash_free p = true → Strings.Split (p +:+ "/" +:+ s) = p :: Strings.Split s.
Proof.
  induction p as [|c p IH]; [done|]. cbn [slash_free].
  intros [Hc Hp]%andb_true_iff. apply negb_true_iff in Hc.
  rewrite str_app_cons. cbn [Strings.Split]. by rewrite Hc, IH.
Qed.

Lemma slash_free_prefix (p : string) :
  slash_free p = true → Strings.HasPrefixSlash p = false.
Proof.
  destruct p as [|c p]; [done|]. cbn.
  intros [Hc _]%andb_true_iff. by apply negb_true_iff in Hc.
Qed.

Lemma NoDoubleSlash_app (p s : string) :
  slash_free p = true →
  Strings.HasPrefixSlash s = false → Strings.NoDoubleSlash s = true →
  Strings.NoDoubleSlash (p +:+ "/" +:+ s) = true.
Proof.
  intros Hp Hs Hnd. induction p as [|c p IH].
  - change ("" +:+ "/" +:+ s) with (String "/" s). cbn. by rewrite Hs, Hnd.
  - cbn [slash_free] in Hp. apply andb_true_iff in Hp as [Hc Hp].
    apply negb_true_iff in Hc. rewrite str_app_cons. cbn [Strings.NoDoubleSlash].
    rewrite Hc, IH by done. done.
Qed.

Lemma NoDoubleSlash_slash_free (p : string) :
  slash_free p = true → Strings.NoDoubleSlash p = true.
Proof.
  induction p as [|c p IH]; [done|]. cbn.
  intros [Hc Hp]%andb_true_iff. apply negb_true_iff in Hc. by rewrite Hc, IH.
Qed.

(** What the joiner rule writes for segments that are all literals. *)
Lemma joined_literal (m : gmap string string) (parts : list string) :
  (∀ part, part ∈ parts → slash_free part = true ∧ placeholder part = None) →
  placeholders (Strings.Split (joined m parts)) = [] ∧
  Strings.HasPrefixSlash (joined m parts) = false ∧
  Strings.NoDoubleSlash (joined m parts) = true.
Proof.
  induction parts as [|part parts IH]; intros Hlit; [done|].
  destruct IH as (IHp & IHs & IHd); [intros q Hq; apply Hlit; by right|].
  destruct (Hlit part) as [Hfree Hph]; [left|].
  rewrite joined_cons. case_decide as Hne; [done|].
  unfold segment_value. rewrite Hph.
  destruct parts as [|part' parts].
  - cbn [joined]. rewrite !str_app_nil_r, Split_single by done.
    unfold placeholders. cbn. rewrite Hph.
    by rewrite slash_free_prefix, NoDoubleSlash_slash_free.
  - rewrite str_app_assoc. rewrite Split_app_slash by done. split; [|split].
    + unfold placeholders in *. cbn [omap list_omap]. by rewrite Hph.
    + destruct part as [|c part]; [done|]. rewrite str_app_cons. cbn.
      cbn in Hfree. apply andb_true_iff in Hfree as [Hc _]. by apply negb_true_iff in Hc.
    + by apply NoDoubleSlash_app.
Qed.

Lemma placeholders_nil (parts : list string) (part : string) :
  placeholders parts = [] → part ∈ parts → placeholder part = None.
Proof.
  unfold placeholders. induction parts as [|q parts IH]; intros Hps Hin.
  - by apply elem_of_nil in Hin.
  - cbn in Hps. destruct (placeholder q) eqn:Hq; [done|].
    apply elem_of_cons in Hin as [->|Hin]; [done|]. by apply IH.
Qed.

(** X13.  For a non-empty template without placeholders, [Path] with no
    bindings returns a path in normal form: it begins with [/], has no
    doubled slash, and is a fixed point, in that [Path] on a handle whose
    template is that path returns it unchanged. *)
Theorem Path_normalises (seed : nat) (nr : NamedRoute)
    (σ : gmap positive (gmap string string)) :
  σ !! parameters nr = Some ∅ →
  route nr ≠ "" →
  (∀ part, part ∈ Strings.Split (route nr) → placeholder part = None) →
  ∃ out,
    Path seed nr σ = Some ((out, None), σ) ∧
    Strings.HasPrefixSlash out = true ∧
    Strings.NoDoubleSlash out = true ∧
    (∀ nr', route nr' = out → parameters nr' = parameters nr →
       Path seed nr' σ = Some ((out, None), σ)).
Proof.
  intros Hl Hr Hlit.
  destruct (joined_literal ∅ (Strings.Split (route nr))) as (Hps & Hprefix & Hdouble).
  { intros part Hin. split; [by eapply Split_slash_free|by apply Hlit]. }
  set (out := "/" +:+ joined ∅ (Strings.Split (route nr))).
  assert (Strings.NoDoubleSlash out = true) as Hout.
  { unfold out. change ("/" +:+ ?s) with (String "/" s). cbn [Strings.NoDoubleSlash].
    by rewrite Hprefix, Hdouble. }
  exists out. split; [|split; [done|split; [done|]]].
  - rewrite (Path_untouched seed nr σ ∅ Hl).
    2:{ intros p _. by rewrite dom_empty_L. }
    rewrite decide_False by done.
    destruct (placeholders (Strings.Split (route nr))) as [|p ps] eqn:Hnone.
    + by rewrite range_first_empty.
    + assert (p ∈ placeholders (Strings.Split (route nr))) as Hp by (rewrite Hnone; left).
      unfold placeholders in Hp. apply list_elem_of_omap in Hp as (part & Hin & Hph).
      by rewrite (Hlit part Hin) in Hph.
  - intros nr' Hroute Hmap. rewrite <- Hroute.
    apply Path_literal_handle; rewrite ?Hroute, ?Hmap; try done.
    intros part Hin. apply (placeholders_nil (Strings.Split out)); [|done].
    unfold out. change ("/" +:+ ?s) with (String "/" s).
    rewrite Split_cons_slash. unfold placeholders in *. by cbn.
Qed.

(** The template that the nested groups [/api] and [/v1] store for
    [/submit]. *)
Lemma Path_normalises_witness :
  ∃ out,
    Path 0 {| name := "v1-submit"; route := "/api//v1/submit"; parameters := 1 |}
      {[ 1%positive := ∅ ]}
    = Some ((out, None), {[ 1%positive := ∅ ]}) ∧
    Strings.HasPrefixSlash out = true ∧
    Strings.NoDoubleSlash out = true ∧
    (∀ nr', route nr' = out →
       parameters nr'
       = parameters {| name := "v1-submit"; route := "/api//v1/submit"; parameters := 1 |} →
       Path 0 nr' {[ 1%positive := ∅ ]} = Some ((out, None), {[ 1%positive := ∅ ]})).
Proof.
  apply (Path_normalises 0
           {| name := "v1-submit"; route := "/api//v1/submit"; parameters := 1 |}
           {[ 1%positive := ∅ ]}).
  - reflexivity.
  - done.
  - intros part Hin. repeat (apply elem_of_cons in Hin as [->|Hin]; [done|]).
    by apply elem_of_nil in Hin.
Defined.

(** ** From the registry to the path *)

(** X14.  For a registered template that begins with [/], has no doubled
    slash and whose placeholders carry pairwise distinct names:
    reversing the name, binding exactly the placeholder names by a chain
    of [With] calls (in any order, possibly binding a key more than
    once) and calling [Path] returns the template with every placeholder
    replaced by the value bound last to its name.  Nothing is left in
    the store but the emptied binding map of the handle. *)
Theorem Reverse_With_Path (seed : nat) (router : NamedRouter)
    (name template : string) (kvs : list (string * string))
    (σ : gmap positive (gmap string string)) (registry : gmap string string) :
  σ !! names router = Some registry →
  registry !! name = Some template →
  Strings.HasPrefixSlash template = true →
  Strings.NoDoubleSlash template = true →
  NoDup (placeholders (Strings.Split template)) →
  (∀ key, key ∈ kvs.*1 ↔ key ∈ placeholders (Strings.Split template)) →
  (handle ← Reverse router name;
   handle' ← With_all handle kvs;
   Path seed handle') σ
  = Some ((substitute (list_to_map (reverse kvs)) template, None),
          <[fresh (dom σ) := ∅]> σ).
Proof.
  intros Hreg Hname Hprefix Hdouble Hnd Hkeys.
  set (l := fresh (dom σ)). set (m := list_to_map (reverse kvs) : gmap string string).
  set (nr := {| name := name; route := template; parameters := l |}).
  rewrite run_bind, (Reverse_registered router name template σ registry) by done.
  fold l nr. rewrite run_bind, (With_all_run nr kvs _ ∅) by apply lookup_insert_eq.
  rewrite insert_insert_eq, (right_id_L ∅ (∪)). fold m.
  assert (dom m = list_to_set (placeholders (Strings.Split template))) as Hdom.
  { unfold m. rewrite dom_list_to_map_L. apply set_eq. intros key.
    rewrite !elem_of_list_to_set, fmap_reverse, elem_of_reverse. apply Hkeys. }
  assert (template ≠ "") as Hr by (by destruct template).
  rewrite (Path_complete seed nr _ m); try done; [|apply lookup_insert_eq|].
  2:{ intros p Hin. rewrite Hdom. by apply elem_of_list_to_set. }
  cbn [route parameters nr]. rewrite consume_all.
  2:{ intros k. rewrite Hdom. by intros ?%elem_of_list_to_set. }
  by rewrite range_first_empty, joined_substitute, insert_insert_eq.
Qed.

(** [router.Reverse("user-item").With("item", "pen").With("id", "3").With("item", "book").Path()] *)
Lemma Reverse_With_Path_witness :
  (handle ← Reverse {| names := 1 |} "user-item";
   handle' ← With_all handle [("item", "pen"); ("id", "3"); ("item", "book")];
   Path 0 handle') {[ 1%positive := {[ "user-item" := "/user/:id/item/:item" ]} ]}
  = Some (("/user/3/item/book", None),
          {[ 1%positive := {[ "user-item" := "/user/:id/item/:item" ]}; 2%positive := ∅ ]}).
Proof.
  etrans.
  - apply (Reverse_With_Path 0 {| names := 1 |} "user-item" "/user/:id/item/:item"
             [("item", "pen"); ("id", "3"); ("item", "book")]
             {[ 1%positive := {[ "user-item" := "/user/:id/item/:item" ]} ]}
             {[ "user-item" := "/user/:id/item/:item" ]}).
    + reflexivity.
    + reflexivity.
    + reflexivity.
    + reflexivity.
    + compute_done.
    + intros key. change (placeholders _) with ["id"; "item"].
      change (_.*1) with ["item"; "id"; "item"].
      rewrite !elem_of_cons, !elem_of_nil. tauto.
  - vm_compute. reflexivity.
Defined.
